(** * AudioEncrypt: the payload codec of the audio-to-image encryptor

    A shallow embedding of the core of the page script (the functions
    [checkPasswordStrength], [deriveKey], [encryptAudioToImage] and
    [decryptImageToAudio]) together with the properties its specification
    states about them.  Line numbers are those of the page's inline
    script.

    Conventions.
    - A byte is a [Byte.byte]; a [Uint8Array], an [ArrayBuffer] and the
      [data] of an [ImageData] are [list byte].
    - A JavaScript string is the list of its UTF-16 code units ([N]).
    - Array lengths and indices are [nat]; numbers stored in the header
      (ciphertext length, sample rate) are [Z], and [ToUint32] is written
      out as [Z.modulo] by [2^32].
    - [throw new Error(...)] is the constructor [Err] of [result], one
      [error] per message of the source.
    - The browser primitives the script calls (Web Crypto, TextEncoder,
      Web Audio) rest on the operations of the class [Platform]; AES-GCM
      is embedded as its mode of operation over the keystream and the tag
      function of the block cipher, which stay abstract. *)

From Stdlib Require Import ZArith Lia Bool.
From Stdlib Require Strings.Byte Strings.String Strings.Ascii.
From stdpp Require Import base list.

Import Corelib.Init.Byte(byte(..)).
Import Stdlib.Strings.String.StringSyntax.
Delimit Scope string_scope with string.

Local Open Scope nat_scope.

(** ** Errors *)

Inductive error : Type :=
| SecretKeyRequired        (* 'Secret key is required' *)
| PasswordTooWeak          (* 'Password is too weak. Use at least 8 characters ...' *)
| HeaderTooShort           (* 'Corrupted data: Image data too short to contain header.' *)
| CiphertextLengthExceeds  (* 'Corrupted data: Declared ciphertext length exceeds available data.' *)
| DecryptionFailed         (* 'Decryption failed - incorrect key or corrupted data.' *)
| InvalidSampleRate (sampleRate : Z) (* `Invalid sample rate (${sampleRate}Hz) in image. ...` *)
| RangeError               (* raised by TypedArray.set, DataView and the Float32Array constructor *)
| IndexSizeError           (* raised by createImageData on an empty or NaN dimension *)
| NotSupportedError        (* raised by AudioContext.createBuffer *)
| LoopBudgetExhausted.     (* the model's loop bound was reached: never the case, see the totality lemmas *)

Inductive result (A : Type) : Type :=
| Ok (a : A)
| Err (e : error).
Arguments Ok {A} a.
Arguments Err {A} e.

#[global] Instance result_ret : MRet result := @Ok.
#[global] Instance result_bind : MBind result := fun A B k r =>
  match r with
  | Ok a => k a
  | Err e => Err e
  end.

Definition is_Err {A} (r : result A) : bool :=
  match r with Ok _ => false | Err _ => true end.

(** The error taxonomy of the specification (section 7), as a reading of
    the messages of the source. *)
Inductive error_kind : Type :=
| InputError | FormatError | AuthenticationFailure | PlatformError.

Definition kind_of (e : error) : error_kind :=
  match e with
  | SecretKeyRequired | PasswordTooWeak => InputError
  | HeaderTooShort | CiphertextLengthExceeds | InvalidSampleRate _ => FormatError
  | DecryptionFailed => AuthenticationFailure
  | RangeError | IndexSizeError | NotSupportedError | LoopBudgetExhausted => PlatformError
  end.

(** ** Constants (lines 4-9) *)

Definition SALT_LENGTH : nat := 16.
Definition IV_LENGTH : nat := 12.
Definition CIPHERTEXT_LENGTH_BYTES : nat := 4.
Definition SAMPLE_RATE_BYTES : nat := 4.
Definition HEADER_LENGTH : nat :=
  SALT_LENGTH + IV_LENGTH + CIPHERTEXT_LENGTH_BYTES + SAMPLE_RATE_BYTES.
Definition BYTES_PER_PIXEL : nat := 3.

(** ** Strings and the character classes of the strength check *)

Abbreviation jsstring := (list N).

(** [!s]: only the empty string is falsy. *)
Definition falsy (s : jsstring) : bool :=
  match s with
  | [] => true
  | _ :: _ => false
  end.

(** A literal of the script as code units (all literals used are ASCII). *)
Definition js (s : String.string) : jsstring :=
  map Ascii.N_of_ascii (String.list_ascii_of_string s).

(** [/[a-z]/], [/[A-Z]/], [/[0-9]/] and [/[^A-Za-z0-9]/] on one code unit. *)
Definition is_lower (c : N) : bool := ((97 <=? c) && (c <=? 122))%N.
Definition is_upper (c : N) : bool := ((65 <=? c) && (c <=? 90))%N.
Definition is_digit (c : N) : bool := ((48 <=? c) && (c <=? 57))%N.
Definition is_non_alnum (c : N) : bool :=
  negb (is_upper c || is_lower c || is_digit c).

(** [re.test(s)] for a regular expression that is one character class:
    some code unit of [s] is in the class. *)
Definition regex_test (cls : N -> bool) (s : jsstring) : bool :=
  existsb cls s.

(** ** StrengthPolicy: [checkPasswordStrength] (lines 42-53) *)

Inductive strength_text : Type := TooShort | Weak | Medium | Strong.
Inductive strength_class : Type := weak | medium | strong.

Record Strength : Type := mkStrength {
  score : Z;
  text : strength_text;
  class : strength_class
}.

Definition checkPasswordStrength (password : jsstring) : Strength :=
  if length password <? 6 then mkStrength 0 TooShort weak
  else
    let score := 1%Z in
    let score := if 12 <=? length password then (score + 1)%Z else score in
    let score := if regex_test is_lower password then (score + 1)%Z else score in
    let score := if regex_test is_upper password then (score + 1)%Z else score in
    let score := if regex_test is_digit password then (score + 1)%Z else score in
    let score := if regex_test is_non_alnum password then (score + 1)%Z else score in
    if (score <? 2)%Z then mkStrength score Weak weak
    else if (score <? 5)%Z then mkStrength score Medium medium
    else mkStrength score Strong strong.

(** ** Bytes, typed arrays and DataView *)

(** The byte a [Uint8Array] stores for an integer: its value modulo 256. *)
Definition byte_of_Z (z : Z) : byte :=
  match Byte.of_N (Z.to_N (z mod 256)) with
  | Some b => b
  | None => x00
  end.

Definition Z_of_byte (b : byte) : Z := Z.of_N (Byte.to_N b).

(** [a[i]] read from a typed array: [undefined] out of range, which a
    typed array stores as 0. *)
Definition get (a : list byte) (i : nat) : byte := default x00 (a !! i).

(** [target.set(source, offset)]. *)
Definition TypedArray_set (target source : list byte) (offset : nat)
  : result (list byte) :=
  if length target <? length source + offset then Err RangeError
  else Ok (take offset target ++ source ++ drop (offset + length source) target).

(** [a.slice(start, end)] for [0 <= start <= end]. *)
Definition slice (a : list byte) (start end_ : nat) : list byte :=
  take (end_ - start) (drop start a).

(** The four bytes of an unsigned 32-bit value, most significant first. *)
Definition u32_be (v : Z) : list byte :=
  [byte_of_Z (v / 2 ^ 24); byte_of_Z (v / 2 ^ 16); byte_of_Z (v / 2 ^ 8); byte_of_Z v].

(** [view.setUint32(byteOffset, value, false)]: [ToUint32(value)], big-endian. *)
Definition DataView_setUint32 (buffer : list byte) (byteOffset : nat) (value : Z)
  : result (list byte) :=
  if length buffer <? byteOffset + 4 then Err RangeError
  else Ok (take byteOffset buffer ++ u32_be (value mod 2 ^ 32)
           ++ drop (byteOffset + 4) buffer).

(** [view.getUint32(byteOffset, false)]. *)
Definition DataView_getUint32 (buffer : list byte) (byteOffset : nat) : result Z :=
  if length buffer <? byteOffset + 4 then Err RangeError
  else Ok (Z_of_byte (get buffer byteOffset) * 2 ^ 24
           + Z_of_byte (get buffer (byteOffset + 1)) * 2 ^ 16
           + Z_of_byte (get buffer (byteOffset + 2)) * 2 ^ 8
           + Z_of_byte (get buffer (byteOffset + 3)))%Z.

(** ** Audio samples *)

(** A 32-bit float sample, as the four bytes it occupies in its
    [ArrayBuffer]: the script never computes with samples, it only moves
    their bytes. *)
Record float32 : Type := F32 { f32_b0 : byte; f32_b1 : byte; f32_b2 : byte; f32_b3 : byte }.

Definition f32_zero : float32 := F32 x00 x00 x00 x00.

(** [floatArray.buffer]. *)
Fixpoint Float32Array_buffer (a : list float32) : list byte :=
  match a with
  | [] => []
  | F32 a0 a1 a2 a3 :: rest => a0 :: a1 :: a2 :: a3 :: Float32Array_buffer rest
  end.

(** [new Float32Array(arrayBuffer)]: a [RangeError] unless the byte length
    is a multiple of 4. *)
Fixpoint Float32Array_new (buffer : list byte) : result (list float32) :=
  match buffer with
  | [] => Ok []
  | a0 :: a1 :: a2 :: a3 :: rest =>
      floats ← Float32Array_new rest; Ok (F32 a0 a1 a2 a3 :: floats)
  | _ => Err RangeError
  end.

(** An [AudioBuffer], of which the script reads and writes channel 0 only.
    The sample rate is a whole number of Hz. *)
Record AudioBuffer : Type := mkAudioBuffer {
  sampleRate : Z;
  channelData : list float32
}.

(** ** The browser primitives *)

(** Bitwise exclusive or of two bytes, and equality of byte strings. *)
Definition xor_bits (a b : bool * (bool * (bool * (bool * (bool * (bool * (bool * bool)))))))
  : bool * (bool * (bool * (bool * (bool * (bool * (bool * bool)))))) :=
  let '(a0, (a1, (a2, (a3, (a4, (a5, (a6, a7))))))) := a in
  let '(b0, (b1, (b2, (b3, (b4, (b5, (b6, b7))))))) := b in
  (xorb a0 b0, (xorb a1 b1, (xorb a2 b2, (xorb a3 b3,
    (xorb a4 b4, (xorb a5 b5, (xorb a6 b6, xorb a7 b7))))))).

Definition byte_xor (a b : byte) : byte :=
  Byte.of_bits (xor_bits (Byte.to_bits a) (Byte.to_bits b)).

Fixpoint bytes_eqb (a b : list byte) : bool :=
  match a, b with
  | [] , [] => true
  | x :: a, y :: b => Byte.eqb x y && bytes_eqb a b
  | _, _ => false
  end.

(** What the script reaches through Web Crypto, TextEncoder and Web
    Audio.  AES-GCM is its mode of operation (NIST SP 800-38D) over two
    functions left to the block cipher: the counter-mode keystream and the
    authentication tag. *)
Class Platform : Type := {
  (** the opaque [CryptoKey] *)
  CryptoKey : Type;
  (** [new TextEncoder().encode(s)] *)
  TextEncoder_encode : jsstring -> list byte;
  (** [importKey] then [deriveKey] with PBKDF2 over SHA-256 for a 256-bit
      AES-GCM key: password bytes, salt, iteration count *)
  PBKDF2_SHA256 : list byte -> list byte -> Z -> CryptoKey;
  (** byte [i] of the counter-mode keystream of AES under a key and a
      nonce *)
  AES_CTR_keystream : CryptoKey -> list byte -> nat -> byte;
  (** byte [i] of the GCM tag of a ciphertext under a key and a nonce,
      with no additional authenticated data *)
  GCM_tag : CryptoKey -> list byte -> list byte -> nat -> byte;
  (** the sample rates [AudioContext.createBuffer] accepts *)
  supportsSampleRate : Z -> bool
}.

(** The default [tagLength] of AES-GCM in Web Crypto: 128 bits. *)
Definition TAG_LENGTH : nat := 16.

(** Counter mode: the data xored with the keystream, byte by byte. *)
Definition GCTR `{Platform} (key : CryptoKey) (iv data : list byte) : list byte :=
  imap (fun i b => byte_xor (AES_CTR_keystream key iv i) b) data.

Definition tag_of `{Platform} (key : CryptoKey) (iv ciphertext : list byte) : list byte :=
  map (GCM_tag key iv ciphertext) (seq 0 TAG_LENGTH).

(** [crypto.subtle.encrypt({name:'AES-GCM', iv}, key, data)]: the
    ciphertext followed by its tag. *)
Definition AES_GCM_encrypt `{Platform} (key : CryptoKey) (iv data : list byte)
  : list byte :=
  let ciphertext := GCTR key iv data in
  ciphertext ++ tag_of key iv ciphertext.

(** [crypto.subtle.decrypt({name:'AES-GCM', iv}, key, data)]; [None] when
    the promise rejects: the input cannot hold a tag, or its tag is not
    the tag of its ciphertext. *)
Definition AES_GCM_decrypt `{Platform} (key : CryptoKey) (iv data : list byte)
  : option (list byte) :=
  if length data <? TAG_LENGTH then None
  else
    let ciphertext := take (length data - TAG_LENGTH) data in
    let tag := drop (length data - TAG_LENGTH) data in
    if bytes_eqb tag (tag_of key iv ciphertext)
    then Some (GCTR key iv ciphertext)
    else None.

(** The source of [crypto.getRandomValues]: the bytes it hands out, and
    how many have been drawn. *)
Record RandomSource : Type := mkRandomSource {
  entropy : nat -> byte;
  position : nat
}.

(** [crypto.getRandomValues(new Uint8Array(n))], with the source advanced. *)
Definition getRandomValues (n : nat) (rs : RandomSource) : list byte * RandomSource :=
  (map (fun i => entropy rs (position rs + i)) (seq 0 n),
   mkRandomSource (entropy rs) (position rs + n)).

(** ** Canvas and image data *)

(** An [ImageData] (and the canvas bitmap it is put on and read back
    from): [data] holds R, G, B, A of each pixel, row-major.  The pixels
    the script writes are opaque or transparent black, which a canvas
    stores and returns unchanged. *)
Record Canvas : Type := mkCanvas {
  width : nat;
  height : nat;
  data : list byte
}.

(** [ctx.createImageData(w, h)]: transparent black, or an [IndexSizeError]
    when a dimension is 0 (or NaN, which converts to 0). *)
Definition createImageData (w h : nat) : result Canvas :=
  if (w =? 0) || (h =? 0) then Err IndexSizeError
  else Ok (mkCanvas w h (replicate (w * h * 4) x00)).

(** [Math.ceil(a / b)] and [Math.ceil(Math.sqrt(n))] on whole numbers.
    Below 2^53 the floating-point quotient and square root of whole
    numbers are whole exactly when the real ones are, so the ceilings are
    the exact ones; [a / 0] is NaN, which the canvas converts to 0. *)
Definition ceil_div (a b : nat) : nat :=
  if a mod b =? 0 then a / b else S (a / b).
Definition ceil_sqrt (n : nat) : nat :=
  if Nat.sqrt n * Nat.sqrt n =? n then Nat.sqrt n else S (Nat.sqrt n).

(** ** KeyDerivation: [deriveKey] (lines 59-70) *)

Definition deriveKey `{Platform} (passphrase : jsstring) (salt : list byte) : CryptoKey :=
  let keyMaterial := TextEncoder_encode passphrase in
  PBKDF2_SHA256 keyMaterial salt 100000%Z.

(** ** PayloadCodec.assemble (lines 89-99 of [encryptAudioToImage]) *)

Definition assemble (salt iv cipherBytes : list byte) (originalSampleRate : Z)
  : result (list byte) :=
  let header := replicate HEADER_LENGTH x00 in
  header ← TypedArray_set header salt 0;
  header ← TypedArray_set header iv SALT_LENGTH;
  header ← DataView_setUint32 header (SALT_LENGTH + IV_LENGTH)
             (Z.of_nat (length cipherBytes));
  header ← DataView_setUint32 header (SALT_LENGTH + IV_LENGTH + CIPHERTEXT_LENGTH_BYTES)
             originalSampleRate;
  let totalDataLength := length header + length cipherBytes in
  let fullPayload := replicate totalDataLength x00 in
  fullPayload ← TypedArray_set fullPayload header 0;
  TypedArray_set fullPayload cipherBytes (length header).

(** ** PixelPacker (lines 101-117 of [encryptAudioToImage]) *)

(** [if (payloadIdx < totalDataLength) data[slot] = fullPayload[payloadIdx++];
     else data[slot] = 0;] *)
Definition write_channel (fullPayload : list byte) (totalDataLength : nat)
    (data : list byte) (slot payloadIdx : nat) : list byte * nat :=
  if payloadIdx <? totalDataLength
  then (<[slot := get fullPayload payloadIdx]> data, S payloadIdx)
  else (<[slot := x00]> data, payloadIdx).

(** The [for (let i = 0; i < imgData.data.length; i += 4)] loop, with its
    [break]; [fuel] bounds the number of iterations. *)
Fixpoint pack_loop (fuel : nat) (fullPayload : list byte)
    (totalDataLength numPixelsRequired : nat)
    (data : list byte) (i payloadIdx : nat) : result (list byte) :=
  if i <? length data then
    match fuel with
    | 0 => Err LoopBudgetExhausted
    | S fuel =>
        let '(data, payloadIdx) :=
          write_channel fullPayload totalDataLength data i payloadIdx in
        let '(data, payloadIdx) :=
          write_channel fullPayload totalDataLength data (i + 1) payloadIdx in
        let '(data, payloadIdx) :=
          write_channel fullPayload totalDataLength data (i + 2) payloadIdx in
        let data := <[i + 3 := xff]> data in
        if (totalDataLength <=? payloadIdx) && (numPixelsRequired - 1 <=? i / 4)
        then Ok data
        else pack_loop fuel fullPayload totalDataLength numPixelsRequired
               data (i + 4) payloadIdx
    end
  else Ok data.

Definition pack (fullPayload : list byte) : result Canvas :=
  let totalDataLength := length fullPayload in
  let numPixelsRequired := ceil_div totalDataLength BYTES_PER_PIXEL in
  let w := ceil_sqrt numPixelsRequired in
  let h := ceil_div numPixelsRequired w in
  imgData ← createImageData w h;
  data ← pack_loop (length (data imgData)) fullPayload totalDataLength
           numPixelsRequired (data imgData) 0 0;
  Ok (mkCanvas w h data).

(** ** PixelUnpacker (lines 132-139 of [decryptImageToAudio]) *)

Fixpoint unpack_loop (fuel : nat) (pixelData : list byte) (maxPossibleDataBytes : nat)
    (allExtractedBytes : list byte) (i extractedByteIdx : nat) : result (list byte) :=
  if (i <? length pixelData) && (extractedByteIdx <? maxPossibleDataBytes) then
    match fuel with
    | 0 => Err LoopBudgetExhausted
    | S fuel =>
        let allExtractedBytes := <[extractedByteIdx := get pixelData i]> allExtractedBytes in
        let extractedByteIdx := S extractedByteIdx in
        let '(allExtractedBytes, extractedByteIdx) :=
          if extractedByteIdx <? maxPossibleDataBytes
          then (<[extractedByteIdx := get pixelData (i + 1)]> allExtractedBytes,
                S extractedByteIdx)
          else (allExtractedBytes, extractedByteIdx) in
        let '(allExtractedBytes, extractedByteIdx) :=
          if extractedByteIdx <? maxPossibleDataBytes
          then (<[extractedByteIdx := get pixelData (i + 2)]> allExtractedBytes,
                S extractedByteIdx)
          else (allExtractedBytes, extractedByteIdx) in
        unpack_loop fuel pixelData maxPossibleDataBytes allExtractedBytes
          (i + 4) extractedByteIdx
    end
  else Ok allExtractedBytes.

Definition unpack (pixelData : list byte) : result (list byte) :=
  let maxPossibleDataBytes := length pixelData / 4 * BYTES_PER_PIXEL in
  let allExtractedBytes := replicate maxPossibleDataBytes x00 in
  unpack_loop (length pixelData) pixelData maxPossibleDataBytes allExtractedBytes 0 0.

(** ** PayloadCodec.parse (lines 141-157 of [decryptImageToAudio]) *)

Record Parsed : Type := mkParsed {
  parsed_salt : list byte;
  parsed_iv : list byte;
  parsed_ciphertextLength : Z;
  parsed_sampleRate : Z;
  parsed_cipher : list byte
}.

Definition parse (allExtractedBytes : list byte) : result Parsed :=
  if length allExtractedBytes <? HEADER_LENGTH then Err HeaderTooShort
  else
    let salt := slice allExtractedBytes 0 SALT_LENGTH in
    let iv := slice allExtractedBytes SALT_LENGTH (SALT_LENGTH + IV_LENGTH) in
    ciphertextLength ← DataView_getUint32 allExtractedBytes (SALT_LENGTH + IV_LENGTH);
    sampleRate ← DataView_getUint32 allExtractedBytes
                   (SALT_LENGTH + IV_LENGTH + CIPHERTEXT_LENGTH_BYTES);
    let ciphertextOffset := HEADER_LENGTH in
    let ciphertextEndOffset := (Z.of_nat ciphertextOffset + ciphertextLength)%Z in
    if (Z.of_nat (length allExtractedBytes) <? ciphertextEndOffset)%Z
    then Err CiphertextLengthExceeds
    else
      let cipher := slice allExtractedBytes ciphertextOffset (Z.to_nat ciphertextEndOffset) in
      Ok (mkParsed salt iv ciphertextLength sampleRate cipher).

(** ** Web Audio: [createBuffer] and [copyToChannel] *)

(** [ac.createBuffer(1, length, sampleRate)]: a [NotSupportedError] for a
    zero length or a rate the platform does not support. *)
Definition createBuffer `{Platform} (length : nat) (sampleRate : Z) : result AudioBuffer :=
  if (length =? 0) || negb (supportsSampleRate sampleRate) then Err NotSupportedError
  else Ok (mkAudioBuffer sampleRate (replicate length f32_zero)).

(** [buf.copyToChannel(source, 0)]. *)
Definition copyToChannel (buf : AudioBuffer) (source : list float32) : AudioBuffer :=
  mkAudioBuffer (sampleRate buf)
    (take (length (channelData buf)) source ++ drop (length source) (channelData buf)).

(** ** The two pipelines *)

Section Pipelines.
Context {P : Platform}.

(** Lines 79-99 of [encryptAudioToImage]: draw the salt and the nonce,
    derive the key, encrypt the samples and assemble the payload. *)
Definition encryptPayload (audioBuffer : AudioBuffer) (pass : jsstring)
    (rs : RandomSource) : result (list byte * RandomSource) :=
  let channelData := channelData audioBuffer in
  let payloadRaw := Float32Array_buffer channelData in
  let originalSampleRate := sampleRate audioBuffer in
  let '(salt, rs) := getRandomValues SALT_LENGTH rs in
  let key := deriveKey pass salt in
  let '(iv, rs) := getRandomValues IV_LENGTH rs in
  let cipherBytes := AES_GCM_encrypt key iv payloadRaw in
  fullPayload ← assemble salt iv cipherBytes originalSampleRate;
  Ok (fullPayload, rs).

(** [encryptAudioToImage] (lines 72-122).  [pass] is what
    [getUserSecretKey()] returns; the canvas is returned with the
    advanced random source. *)
Definition encryptAudioToImage (audioBuffer : AudioBuffer) (pass : jsstring)
    (rs : RandomSource) : result (Canvas * RandomSource) :=
  if falsy pass then Err SecretKeyRequired
  else
    let strength := checkPasswordStrength pass in
    if (score strength <? 2)%Z then Err PasswordTooWeak
    else
      '(fullPayload, rs) ← encryptPayload audioBuffer pass rs;
      canvas ← pack fullPayload;
      Ok (canvas, rs).

(** The salt, the nonce and the ciphertext [encryptPayload] uses. *)
Definition salt_of (rs : RandomSource) : list byte :=
  (getRandomValues SALT_LENGTH rs).1.
Definition iv_of (rs : RandomSource) : list byte :=
  (getRandomValues IV_LENGTH (getRandomValues SALT_LENGTH rs).2).1.
Definition cipher_of (audioBuffer : AudioBuffer) (pass : jsstring) (rs : RandomSource)
  : list byte :=
  AES_GCM_encrypt (deriveKey pass (salt_of rs)) (iv_of rs)
    (Float32Array_buffer (channelData audioBuffer)).

(** [decryptImageToAudio] (lines 124-178). *)
Definition decryptImageToAudio (canvas : Canvas) (pass : jsstring)
    : result AudioBuffer :=
  if falsy pass then Err SecretKeyRequired
  else
    let pixelData := data canvas in
    allExtractedBytes ← unpack pixelData;
    parsed ← parse allExtractedBytes;
    let key := deriveKey pass (parsed_salt parsed) in
    match AES_GCM_decrypt key (parsed_iv parsed) (parsed_cipher parsed) with
    | None => Err DecryptionFailed
    | Some rawDecryptedAudioData =>
        floatArr ← Float32Array_new rawDecryptedAudioData;
        let sampleRate := parsed_sampleRate parsed in
        if (sampleRate <=? 0)%Z || (192000 <? sampleRate)%Z
        then Err (InvalidSampleRate sampleRate)
        else
          buf ← createBuffer (length floatArr) sampleRate;
          Ok (copyToChannel buf floatArr)
    end.
End Pipelines.

(** The value of the four bytes at offsets 28-31 of a payload, read as an
    unsigned big-endian integer: the declared ciphertext length. *)
Definition declared_length (payload : list byte) : Z :=
  (Z_of_byte (get payload 28) * 2 ^ 24 + Z_of_byte (get payload 29) * 2 ^ 16
   + Z_of_byte (get payload 30) * 2 ^ 8 + Z_of_byte (get payload 31))%Z.

(** The value of the four bytes at offsets 32-35: the sample rate field. *)
Definition declared_rate (payload : list byte) : Z :=
  (Z_of_byte (get payload 32) * 2 ^ 24 + Z_of_byte (get payload 33) * 2 ^ 16
   + Z_of_byte (get payload 34) * 2 ^ 8 + Z_of_byte (get payload 35))%Z.

(** ** The inputs the pipelines are meant for *)

(** An [AudioBuffer] the platform can hold: Web Audio has no buffer of
    zero frames and none at a sample rate it does not support. *)
Definition AudioBuffer_valid `{Platform} (audioBuffer : AudioBuffer) : Prop :=
  channelData audioBuffer <> [] /\
  supportsSampleRate (sampleRate audioBuffer) = true.

(** The ciphertext of the samples (4 bytes each, and the 16-byte tag) has a
    length the 4-byte header field can hold. *)
Definition fits_length_field (audioBuffer : AudioBuffer) : Prop :=
  (Z.of_nat (4 * length (channelData audioBuffer) + 16) < 2 ^ 32)%Z.

(** ** A small platform to run the pipelines on

    An instance of [Platform] with checksums in place of AES, to evaluate
    the pipelines on concrete inputs. *)
Module Small.

Definition checksum (l : list byte) : byte := foldr byte_xor x5a l.

#[export] Instance platform : Platform := {|
  CryptoKey := list byte;
  TextEncoder_encode := map (fun c => byte_of_Z (Z.of_N c));
  PBKDF2_SHA256 := fun password salt _ => password ++ salt;
  AES_CTR_keystream := fun key iv i =>
    byte_xor (checksum (key ++ iv)) (byte_of_Z (Z.of_nat i));
  GCM_tag := fun key iv ciphertext i =>
    byte_xor (checksum (key ++ iv ++ ciphertext)) (byte_of_Z (Z.of_nat i));
  supportsSampleRate := fun r => (8000 <=? r)%Z && (r <=? 96000)%Z
|}.

(** A random source that counts up from [start]. *)
Definition counter (start : nat) : RandomSource :=
  mkRandomSource (fun i => byte_of_Z (Z.of_nat i)) start.

End Small.

(** ** Concrete inputs *)

(** The passphrase of the specification's scenario. *)
Definition scenario_passphrase : jsstring := js "Tr0ub4dor&3"%string.

Definition two_samples : AudioBuffer :=
  mkAudioBuffer 44100 [F32 x01 x02 x03 x04; F32 x05 x06 x07 x08].

(** One second of silence at 44100 Hz. *)
Definition one_second_of_silence : AudioBuffer :=
  mkAudioBuffer 44100 (replicate (Z.to_nat 44100) f32_zero).

(** A 4 x 3 image of transparent black: 36 bytes of zeros once unpacked,
    so a zero ciphertext length and a zero sample rate. *)
Definition blank_canvas : Canvas := mkCanvas 4 3 (replicate 48 x00).

(** The image of one sample encrypted on the small platform with a sample
    rate field of 0. *)
Definition zero_rate_canvas : Canvas :=
  Eval vm_compute in
    match encryptAudioToImage (P := Small.platform) (mkAudioBuffer 0 [f32_zero])
            scenario_passphrase (Small.counter 0) with
    | Ok (canvas, _) => canvas
    | Err _ => mkCanvas 0 0 []
    end.

(** ** The strength rules in the specification's words, and the closed
       forms of the pixel grid *)

(** The character classes of section 4.3, as code-unit ranges. *)
Definition lowercase (c : N) : Prop := (97 <= c <= 122)%N.
Definition uppercase (c : N) : Prop := (65 <= c <= 90)%N.
Definition digit (c : N) : Prop := (48 <= c <= 57)%N.
Definition non_alphanumeric (c : N) : Prop :=
  ~ (lowercase c \/ uppercase c \/ digit c).

#[global] Instance lowercase_dec c : Decision (lowercase c).
Proof. unfold lowercase. apply _. Defined.
#[global] Instance uppercase_dec c : Decision (uppercase c).
Proof. unfold uppercase. apply _. Defined.
#[global] Instance digit_dec c : Decision (digit c).
Proof. unfold digit. apply _. Defined.
#[global] Instance non_alphanumeric_dec c : Decision (non_alphanumeric c).
Proof. unfold non_alphanumeric. apply _. Defined.

(** One point for a criterion that is met. *)
Definition point (criterion : Prop) `{Decision criterion} : Z :=
  if decide criterion then 1%Z else 0%Z.

(** Section 4.3: one point as a base and one per criterion met. *)
Definition spec_score (password : jsstring) : Z :=
  (1 + point (12 <= length password)%nat
     + point (Exists lowercase password)
     + point (Exists uppercase password)
     + point (Exists digit password)
     + point (Exists non_alphanumeric password))%Z.

Definition spec_level (s : Z) : strength_text :=
  if (s <? 2)%Z then Weak else if (s <? 5)%Z then Medium else Strong.

(** The R, G, B, A bytes of pixel [j] carrying payload bytes [3j..3j+2]. *)
Definition pixel_of (payload : list byte) (j : nat) : list byte :=
  [get payload (3 * j); get payload (3 * j + 1); get payload (3 * j + 2); xff].

Definition packed_pixels (payload : list byte) (k : nat) : list byte :=
  concat (map (pixel_of payload) (seq 0 k)).

(** The R, G, B bytes of pixel [j] of an image. *)
Definition rgb_of (pixelData : list byte) (j : nat) : list byte :=
  [get pixelData (4 * j); get pixelData (4 * j + 1); get pixelData (4 * j + 2)].

Definition unpacked_bytes (pixelData : list byte) (k : nat) : list byte :=
  concat (map (rgb_of pixelData) (seq 0 k)).

(** ** The secret key field: [getUserSecretKey] (lines 55-57) *)

(** The code units [String.prototype.trim] strips: white space and line
    terminators. *)
Definition is_space (c : N) : bool :=
  ((c =? 9) || (c =? 10) || (c =? 11) || (c =? 12) || (c =? 13) || (c =? 32)
   || (c =? 160) || (c =? 5760) || ((8192 <=? c) && (c <=? 8202))
   || (c =? 8232) || (c =? 8233) || (c =? 8239) || (c =? 8287)
   || (c =? 12288) || (c =? 65279))%N.

Fixpoint drop_while (f : N -> bool) (s : jsstring) : jsstring :=
  match s with
  | [] => []
  | c :: rest => if f c then drop_while f rest else s
  end.

(** [s.trim()]. *)
Definition trim (s : jsstring) : jsstring :=
  rev (drop_while is_space (rev (drop_while is_space s))).

(** [document.getElementById('secret-key-input').value.trim()], as a
    function of the field's value. *)
Definition getUserSecretKey (keyInputValue : jsstring) : jsstring :=
  trim keyInputValue.

(** ** The play button: [updatePlayButtonState] (lines 223-230) *)

(** The part of the page the function reads and writes. *)
Record Page : Type := mkPage {
  keyInput_value : jsstring;
  display_canvas : option Canvas;
  isPlaying : bool;
  playBtn_disabled : bool
}.

(** The truth value of [display.querySelector('canvas')]. *)
Definition truthy_canvas (canvas : option Canvas) : bool :=
  match canvas with
  | Some _ => true
  | None => false
  end.

Definition updatePlayButtonState (page : Page) : Page :=
  let pass := getUserSecretKey (keyInput_value page) in
  let strength := checkPasswordStrength pass in
  let canvas := display_canvas page in
  if negb (isPlaying page)
  then mkPage (keyInput_value page) (display_canvas page) (isPlaying page)
         (negb (truthy_canvas canvas && negb (falsy pass)
                && (2 <=? score strength)%Z))
  else page.

(** ** The error banner: [showError] and [clearError] (lines 11-40) *)

(** The element [error-message-area]: its text, and whether its
    [style.display] is ['block'] rather than ['none']. *)
Record ErrorArea : Type := mkErrorArea {
  textContent : jsstring;
  displayed : bool
}.

(** The two globals of the banner and the browser's timers: the handles
    of the timeouts set and neither run nor cleared, and the next handle
    [setTimeout] returns (handles are positive, hence truthy). *)
Record Banner : Type := mkBanner {
  errorDisplay : option ErrorArea;
  errorTimeout : option positive;
  pendingTimers : list positive;
  nextTimer : positive
}.

Definition hidden : ErrorArea := mkErrorArea [] false.

(** [clearTimeout(id)]. *)
Definition clearTimeout (id : positive) (b : Banner) : Banner :=
  mkBanner (errorDisplay b) (errorTimeout b)
    (filter (fun t => t <> id) (pendingTimers b)) (nextTimer b).

(** [setTimeout(callback, duration)]: the handle, and the timer pending. *)
Definition setTimeout (b : Banner) : positive * Banner :=
  (nextTimer b,
   mkBanner (errorDisplay b) (errorTimeout b)
     (nextTimer b :: pendingTimers b) (Pos.succ (nextTimer b))).

(** [showError(message, duration)] (lines 14-29). *)
Definition showError (message : jsstring) (duration : Z) (b : Banner) : Banner :=
  match errorDisplay b with
  | Some _ =>
      let b := mkBanner (Some (mkErrorArea message true)) (errorTimeout b)
                 (pendingTimers b) (nextTimer b) in
      let b := match errorTimeout b with
               | Some id => clearTimeout id b
               | None => b
               end in
      if (0 <? duration)%Z
      then let '(id, b) := setTimeout b in
           mkBanner (errorDisplay b) (Some id) (pendingTimers b) (nextTimer b)
      else b
  | None => b
  end.

(** The callback of line 23, run by the browser for a pending timer. *)
Definition timerFires (id : positive) (b : Banner) : Banner :=
  if bool_decide (id ∈ pendingTimers b)
  then mkBanner (Some hidden) (errorTimeout b)
         (filter (fun t => t <> id) (pendingTimers b)) (nextTimer b)
  else b.

(** [clearError()] (lines 31-40). *)
Definition clearError (b : Banner) : Banner :=
  match errorDisplay b with
  | Some _ =>
      let b := mkBanner (Some hidden) (errorTimeout b) (pendingTimers b)
                 (nextTimer b) in
      match errorTimeout b with
      | Some id =>
          let b := clearTimeout id b in
          mkBanner (errorDisplay b) None (pendingTimers b) (nextTimer b)
      | None => b
      end
  | None => b
  end.

(** What happens to the banner: the page assigns the element on
    [DOMContentLoaded], the script shows and clears errors, the browser
    runs timers. *)
Inductive banner_event : Type :=
| DOMContentLoaded (area : option ErrorArea)
| ShowError (message : jsstring) (duration : Z)
| ClearError
| TimerFires (id : positive).

Definition banner_step (b : Banner) (e : banner_event) : Banner :=
  match e with
  | DOMContentLoaded area =>
      mkBanner area (errorTimeout b) (pendingTimers b) (nextTimer b)
  | ShowError message duration => showError message duration b
  | ClearError => clearError b
  | TimerFires id => timerFires id b
  end.

(** The banner when the script is loaded (line 11-12). *)
Definition banner_init : Banner := mkBanner None None [] 1%positive.

Definition banner_run (events : list banner_event) : Banner :=
  foldl banner_step banner_init events.

(** At most one timer is pending, and it is the one [errorTimeout]
    holds. *)
Definition banner_inv (b : Banner) : Prop :=
  pendingTimers b = [] \/
  exists id, pendingTimers b = [id] /\ errorTimeout b = Some id.

(** ** WAV export: [bufferToWav] (lines 180-203) *)

(** An [AudioBuffer] with all its channels, as [bufferToWav] reads it. *)
Record PcmSource : Type := mkPcmSource {
  numberOfChannels : nat;
  frameCount : nat;                      (* [buffer.length] *)
  pcm_sampleRate : Z;
  getChannelData : nat -> list float32
}.

(** The buffers [decryptImageToAudio] returns have one channel. *)
Definition pcm_of (buf : AudioBuffer) : PcmSource :=
  mkPcmSource 1 (length (channelData buf)) (sampleRate buf) (fun _ => channelData buf).

(** Little-endian fields. *)
Definition u16_le (v : Z) : list byte := [byte_of_Z v; byte_of_Z (v / 2 ^ 8)].
Definition u32_le (v : Z) : list byte :=
  [byte_of_Z v; byte_of_Z (v / 2 ^ 8); byte_of_Z (v / 2 ^ 16); byte_of_Z (v / 2 ^ 24)].

(** A write of [bytes] at [byteOffset] of a [DataView]: a [RangeError]
    past the end. *)
Definition DataView_write (buffer : list byte) (byteOffset : nat) (bytes : list byte)
  : result (list byte) :=
  if length buffer <? byteOffset + length bytes then Err RangeError
  else Ok (take byteOffset buffer ++ bytes ++ drop (byteOffset + length bytes) buffer).

(** [view.setUint8(o, v)], [view.setUint16(o, v, true)],
    [view.setUint32(o, v, true)] and [view.setInt16(o, v, true)] on whole
    numbers: the value modulo 2^8, 2^16 or 2^32, least significant byte
    first. *)
Definition DataView_setUint8 (buffer : list byte) (byteOffset : nat) (value : Z) :=
  DataView_write buffer byteOffset [byte_of_Z value].
Definition DataView_setUint16_le (buffer : list byte) (byteOffset : nat) (value : Z) :=
  DataView_write buffer byteOffset (u16_le (value mod 2 ^ 16)).
Definition DataView_setUint32_le (buffer : list byte) (byteOffset : nat) (value : Z) :=
  DataView_write buffer byteOffset (u32_le (value mod 2 ^ 32)).
Definition DataView_setInt16_le (buffer : list byte) (byteOffset : nat) (value : Z) :=
  DataView_write buffer byteOffset (u16_le (value mod 2 ^ 16)).

(** [writeString(offset, str)] (lines 184-186), from character [i] on. *)
Fixpoint writeString_from (view : list byte) (offset i : nat) (str : jsstring)
  : result (list byte) :=
  match str with
  | [] => Ok view
  | c :: rest =>
      view ← DataView_setUint8 view (offset + i) (Z.of_N c);
      writeString_from view offset (S i) rest
  end.

Definition writeString (view : list byte) (offset : nat) (str : jsstring)
  : result (list byte) :=
  writeString_from view offset 0 str.

Section BufferToWav.
(** The whole number [setInt16] keeps of
    [s < 0 ? s * 0x8000 : s * 0x7FFF] for the sample clamped to [-1, 1],
    and of [undefined] for a missing sample: floating-point arithmetic,
    left to the engine. *)
Variable pcm16 : option float32 -> Z.

(** The [for c] loop of lines 194-199 at frame [i]. *)
Fixpoint wav_channels (buffer : PcmSource) (view : list byte) (i : nat)
    (cs : list nat) (offset : nat) : result (list byte * nat) :=
  match cs with
  | [] => Ok (view, offset)
  | c :: cs =>
      let sample := getChannelData buffer c !! i in
      view ← DataView_setInt16_le view offset (pcm16 sample);
      wav_channels buffer view i cs (offset + 2)
  end.

(** The [for i] loop of lines 193-200. *)
Fixpoint wav_frames (buffer : PcmSource) (view : list byte) (frames : list nat)
    (offset : nat) : result (list byte) :=
  match frames with
  | [] => Ok view
  | i :: frames =>
      '(view, offset) ← wav_channels buffer view i
                           (seq 0 (numberOfChannels buffer)) offset;
      wav_frames buffer view frames offset
  end.

(** [bufferToWav(buffer)]: the bytes of the blob. *)
Definition bufferToWav (buffer : PcmSource) : result (list byte) :=
  let numChan := numberOfChannels buffer in
  let len := frameCount buffer * numChan * 2 + 44 in
  let view := replicate len x00 in
  view ← writeString view 0 (js "RIFF"%string);
  view ← DataView_setUint32_le view 4 (Z.of_nat len - 8);
  view ← writeString view 8 (js "WAVE"%string);
  view ← writeString view 12 (js "fmt "%string);
  view ← DataView_setUint32_le view 16 16;
  view ← DataView_setUint16_le view 20 1;
  view ← DataView_setUint16_le view 22 (Z.of_nat numChan);
  view ← DataView_setUint32_le view 24 (pcm_sampleRate buffer);
  view ← DataView_setUint32_le view 28 (pcm_sampleRate buffer * Z.of_nat numChan * 2);
  view ← DataView_setUint16_le view 32 (Z.of_nat numChan * 2);
  view ← DataView_setUint16_le view 34 16;
  view ← writeString view 36 (js "data"%string);
  view ← DataView_setUint32_le view 40 (Z.of_nat len - 44);
  wav_frames buffer view (seq 0 (frameCount buffer)) 44.
End BufferToWav.

(** The fields of a WAV file, read back little-endian. *)
Definition u16_le_at (wav : list byte) (offset : nat) : Z :=
  (Z_of_byte (get wav offset) + Z_of_byte (get wav (offset + 1)) * 2 ^ 8)%Z.
Definition u32_le_at (wav : list byte) (offset : nat) : Z :=
  (Z_of_byte (get wav offset) + Z_of_byte (get wav (offset + 1)) * 2 ^ 8
   + Z_of_byte (get wav (offset + 2)) * 2 ^ 16
   + Z_of_byte (get wav (offset + 3)) * 2 ^ 24)%Z.

Definition u16_le_value (field : list byte) : Z := u16_le_at field 0.
Definition u32_le_value (field : list byte) : Z := u32_le_at field 0.

(** The file [bufferToWav] is meant to write: the 44-byte header of a
    16-bit PCM WAV file, then the samples frame by frame, the channels of
    a frame side by side. *)
Definition ascii_bytes (str : jsstring) : list byte :=
  map (fun c => byte_of_Z (Z.of_N c)) str.

Definition wav_header (numChan : nat) (rate : Z) (len : nat) : list byte :=
  ascii_bytes (js "RIFF"%string) ++ u32_le ((Z.of_nat len - 8) mod 2 ^ 32)
  ++ ascii_bytes (js "WAVE"%string)
  ++ ascii_bytes (js "fmt "%string) ++ u32_le 16 ++ u16_le 1
  ++ u16_le (Z.of_nat numChan mod 2 ^ 16) ++ u32_le (rate mod 2 ^ 32)
  ++ u32_le ((rate * Z.of_nat numChan * 2) mod 2 ^ 32)
  ++ u16_le ((Z.of_nat numChan * 2) mod 2 ^ 16) ++ u16_le 16
  ++ ascii_bytes (js "data"%string) ++ u32_le ((Z.of_nat len - 44) mod 2 ^ 32).

Definition wav_sample (pcm16 : option float32 -> Z) (buffer : PcmSource) (i c : nat)
  : list byte :=
  u16_le (pcm16 (getChannelData buffer c !! i) mod 2 ^ 16).

Definition wav_frame (pcm16 : option float32 -> Z) (buffer : PcmSource) (i : nat)
  : list byte :=
  concat (map (wav_sample pcm16 buffer i) (seq 0 (numberOfChannels buffer))).

Definition wav_file (pcm16 : option float32 -> Z) (buffer : PcmSource) : list byte :=
  wav_header (numberOfChannels buffer) (pcm_sampleRate buffer)
    (frameCount buffer * numberOfChannels buffer * 2 + 44)
  ++ concat (map (wav_frame pcm16 buffer) (seq 0 (frameCount buffer))).

(** ** The seed of the earlier script: [createSeedFromString]
       (script.js, lines 57-64) *)

Definition createSeedFromString (str : jsstring) : Z :=
  if falsy str then 0%Z
  else foldl (fun seed c => ((seed + Z.of_N c) mod 2147483647)%Z) 0%Z str.

(** The image of [two_samples] encrypted on the small platform. *)
Definition two_samples_canvas : Canvas :=
  Eval vm_compute in
    match encryptAudioToImage (P := Small.platform) two_samples
            scenario_passphrase (Small.counter 0) with
    | Ok (canvas, _) => canvas
    | Err _ => mkCanvas 0 0 []
    end.

(** An image in the format whose authentic plaintext has three bytes, and
    one whose authentic plaintext is empty, both for the key ["a"], on the
    small platform. *)
Definition format_image (pass : jsstring) (plaintext : list byte) (rate : Z) : Canvas :=
  let salt := replicate 16 x00 in
  let iv := replicate 12 x00 in
  let cipherBytes :=
    AES_GCM_encrypt (H := Small.platform) (deriveKey pass salt) iv plaintext in
  match pack (salt ++ iv ++ u32_be (Z.of_nat (length cipherBytes)) ++ u32_be rate
              ++ cipherBytes) with
  | Ok canvas => canvas
  | Err _ => mkCanvas 0 0 []
  end.

Definition three_byte_canvas : Canvas :=
  Eval vm_compute in format_image (js "a"%string) [x01; x02; x03] 44100.

Definition empty_recording_canvas : Canvas :=
  Eval vm_compute in format_image (js "a"%string) [] 44100.

(** A stand-in for the engine's sample conversion, to run [bufferToWav]
    on concrete buffers: the two high bytes of the sample. *)
Definition high_word (sample : option float32) : Z :=
  match sample with
  | Some (F32 _ _ a2 a3) => (Z_of_byte a2 + Z_of_byte a3 * 2 ^ 8)%Z
  | None => 0%Z
  end.

(** The ['input'] listener of the key field (lines 245-252): the strength
    it displays, of the value as typed, and the page after
    [updatePlayButtonState]. *)
Definition keyInput_oninput (page : Page) : Strength * Page :=
  let password := keyInput_value page in
  let strength := checkPasswordStrength password in
  (strength, updatePlayButtonState page).

(** The sum of the code units of a string. *)
Definition code_unit_sum (str : jsstring) : Z :=
  foldr (fun c acc => (Z.of_N c + acc)%Z) 0%Z str.

(** The image of one sample encrypted on the small platform: 19 pixels of
    payload on a 5 x 4 grid, and one padding pixel. *)
Definition one_sample_canvas : Canvas :=
  Eval vm_compute in
    match encryptAudioToImage (P := Small.platform) (mkAudioBuffer 44100 [f32_zero])
            scenario_passphrase (Small.counter 0) with
    | Ok (canvas, _) => canvas
    | Err _ => mkCanvas 0 0 []
    end.

(** An image with the alpha of every pixel at 255, the colours as they
    are. *)
Definition opaque (canvas : Canvas) : Canvas :=
  mkCanvas (width canvas) (height canvas)
    (imap (fun i b => if i mod 4 =? 3 then xff else b) (data canvas)).

(** * Properties *)

(** ** Bytes and big-endian words *)

Lemma Z_of_byte_range (b : byte) : (0 <= Z_of_byte b < 256)%Z.
Proof.
  unfold Z_of_byte. pose proof (Byte.to_N_bounded b). lia.
Qed.

Lemma Z_of_byte_of_Z (z : Z) : Z_of_byte (byte_of_Z z) = (z mod 256)%Z.
Proof.
  unfold Z_of_byte, byte_of_Z.
  assert (Hr : (0 <= z mod 256 < 256)%Z) by (apply Z.mod_pos_bound; lia).
  destruct (Byte.of_N (Z.to_N (z mod 256))) as [b|] eqn:E.
  - apply Byte.to_of_N in E. rewrite E. lia.
  - apply Byte.of_N_None_iff in E. lia.
Qed.

Lemma byte_of_Z_of_byte (b : byte) : byte_of_Z (Z_of_byte b) = b.
Proof.
  unfold byte_of_Z, Z_of_byte.
  pose proof (Byte.to_N_bounded b).
  rewrite Z.mod_small by lia. rewrite N2Z.id, Byte.of_to_N. reflexivity.
Qed.

(** Reading back the four bytes [u32_be] writes. *)
Lemma u32_be_decode (v : Z) :
  (0 <= v < 2 ^ 32)%Z ->
  (Z_of_byte (byte_of_Z (v / 2 ^ 24)) * 2 ^ 24
   + Z_of_byte (byte_of_Z (v / 2 ^ 16)) * 2 ^ 16
   + Z_of_byte (byte_of_Z (v / 2 ^ 8)) * 2 ^ 8
   + Z_of_byte (byte_of_Z v))%Z = v.
Proof.
  intros Hv. rewrite !Z_of_byte_of_Z.
  change (2 ^ 24)%Z with 16777216%Z. change (2 ^ 16)%Z with 65536%Z.
  change (2 ^ 8)%Z with 256%Z. change (2 ^ 32)%Z with 4294967296%Z in Hv.
  pose proof (Z.div_mod v 256 ltac:(lia)) as H0.
  pose proof (Z.div_mod (v / 256) 256 ltac:(lia)) as H1.
  pose proof (Z.div_mod (v / 256 / 256) 256 ltac:(lia)) as H2.
  rewrite Z.div_div in H1, H2 by lia.
  rewrite Z.div_div in H2 by lia.
  change (256 * 256)%Z with 65536%Z in *.
  change (65536 * 256)%Z with 16777216%Z in *.
  assert (H3 : (v / 16777216 mod 256 = v / 16777216)%Z).
  { apply Z.mod_small. split; [apply Z.div_pos; lia|].
    apply Z.div_lt_upper_bound; lia. }
  lia.
Qed.

Lemma length_u32_be (v : Z) : length (u32_be v) = 4.
Proof. reflexivity. Qed.

Lemma get_app_l (l1 l2 : list byte) (i : nat) :
  i < length l1 -> get (l1 ++ l2) i = get l1 i.
Proof. intros Hi. unfold get. by rewrite lookup_app_l. Qed.

Lemma get_app_r (l1 l2 : list byte) (i : nat) :
  get (l1 ++ l2) (length l1 + i) = get l2 i.
Proof.
  unfold get. rewrite lookup_app_r by lia.
  by replace (length l1 + i - length l1) with i by lia.
Qed.

Lemma get_ge (l : list byte) (i : nat) : length l <= i -> get l i = x00.
Proof. intros Hi. unfold get. by rewrite lookup_ge_None_2. Qed.

Lemma get_replicate (n i : nat) : get (replicate n x00) i = x00.
Proof.
  unfold get. destruct (replicate n x00 !! i) as [b|] eqn:E; [|done].
  by apply lookup_replicate in E as [-> _].
Qed.

Lemma map_get_seq (l : list byte) : map (get l) (seq 0 (length l)) = l.
Proof.
  apply list_eq. intros i. rewrite list_lookup_fmap.
  destruct (decide (i < length l)) as [Hi|Hi].
  - rewrite lookup_seq_lt by done. simpl. unfold get.
    destruct (lookup_lt_is_Some_2 l i Hi) as [b Hb]. by rewrite Hb.
  - rewrite lookup_seq_ge by lia. simpl. by rewrite lookup_ge_None_2 by lia.
Qed.

Lemma TypedArray_set_ok (target source : list byte) (offset : nat) :
  length source + offset <= length target ->
  TypedArray_set target source offset
  = Ok (take offset target ++ source ++ drop (offset + length source) target).
Proof.
  intros Hle. unfold TypedArray_set.
  by destruct (Nat.ltb_spec (length target) (length source + offset)); [lia|].
Qed.

Lemma DataView_setUint32_ok (buffer : list byte) (byteOffset : nat) (value : Z) :
  byteOffset + 4 <= length buffer ->
  DataView_setUint32 buffer byteOffset value
  = Ok (take byteOffset buffer ++ u32_be (value mod 2 ^ 32)
        ++ drop (byteOffset + 4) buffer).
Proof.
  intros Hle. unfold DataView_setUint32.
  by destruct (Nat.ltb_spec (length buffer) (byteOffset + 4)); [lia|].
Qed.

(** [getUint32] reads back what [u32_be] laid down at [length pre]. *)
Lemma DataView_getUint32_u32_be (pre post : list byte) (v : Z) :
  (0 <= v < 2 ^ 32)%Z ->
  DataView_getUint32 (pre ++ u32_be v ++ post) (length pre) = Ok v.
Proof.
  intros Hv. unfold DataView_getUint32.
  destruct (Nat.ltb_spec (length (pre ++ u32_be v ++ post)) (length pre + 4)) as [Hlt|_].
  { rewrite !length_app, length_u32_be in Hlt. lia. }
  f_equal.
  rewrite <- (Nat.add_0_r (length pre)) at 1.
  rewrite !get_app_r. unfold u32_be, get. simpl.
  by apply u32_be_decode.
Qed.

(** ** PayloadCodec.assemble *)

Lemma bind_Ok {A B} (a : A) (k : A -> result B) : (Ok a ≫= k) = k a.
Proof. reflexivity. Qed.

Lemma bind_Err {A B} (e : error) (k : A -> result B) : (Err e ≫= k) = Err e.
Proof. reflexivity. Qed.

(** A list of known length, taken apart into its elements. *)
Ltac explode l H :=
  repeat (destruct l as [|? l]; [discriminate H|]);
  destruct l; [clear H|discriminate H].

(** The closed form of the payload. *)
Lemma assemble_eq (salt iv cipherBytes : list byte) (originalSampleRate : Z) :
  length salt = 16 -> length iv = 12 ->
  assemble salt iv cipherBytes originalSampleRate
  = Ok (salt ++ iv ++ u32_be (Z.of_nat (length cipherBytes) mod 2 ^ 32)
        ++ u32_be (originalSampleRate mod 2 ^ 32) ++ cipherBytes).
Proof.
  intros Hs Hi. unfold assemble, DataView_setUint32, u32_be.
  repeat match goal with
         | |- context [byte_of_Z ?z] => generalize (byte_of_Z z); intro
         end.
  explode salt Hs. explode iv Hi.
  cbn.
  rewrite TypedArray_set_ok by (simpl; rewrite ?length_drop, ?length_replicate; lia).
  f_equal. simpl.
  rewrite (drop_ge (drop _ _)) by (rewrite !length_drop, length_replicate; lia).
  by rewrite app_nil_r.
Qed.

(** ** Grid dimensions *)

Lemma ceil_div_spec (a b : nat) :
  0 < b -> a <= b * ceil_div a b /\ b * ceil_div a b < a + b.
Proof.
  intros Hb. unfold ceil_div.
  pose proof (Nat.div_mod_eq a b) as Hdm.
  pose proof (Nat.mod_upper_bound a b ltac:(lia)) as Hm.
  destruct (Nat.eqb_spec (a mod b) 0); nia.
Qed.

Lemma ceil_div_pos (a b : nat) : 0 < a -> 0 < b -> 0 < ceil_div a b.
Proof.
  intros Ha Hb. destruct (ceil_div_spec a b Hb) as [H1 _]. nia.
Qed.

Lemma ceil_sqrt_spec (n : nat) :
  n <= ceil_sqrt n * ceil_sqrt n /\
  (0 < n -> (ceil_sqrt n - 1) * (ceil_sqrt n - 1) < n).
Proof.
  unfold ceil_sqrt. pose proof (Nat.sqrt_spec n ltac:(lia)) as Hs.
  destruct (Nat.eqb_spec (Nat.sqrt n * Nat.sqrt n) n) as [E|E].
  - split; [lia|]. intros Hn.
    assert (0 < Nat.sqrt n) by (destruct (Nat.sqrt n); simpl in *; lia).
    nia.
  - split; [lia|]. intros _. replace (S (Nat.sqrt n) - 1) with (Nat.sqrt n) by lia. lia.
Qed.

Lemma ceil_sqrt_pos (n : nat) : 0 < n -> 0 < ceil_sqrt n.
Proof.
  intros Hn. destruct (ceil_sqrt_spec n) as [H1 _]. nia.
Qed.

(** The grid has room for the pixels required. *)
Lemma grid_capacity (numPixelsRequired : nat) :
  0 < numPixelsRequired ->
  let w := ceil_sqrt numPixelsRequired in
  let h := ceil_div numPixelsRequired w in
  0 < w /\ 0 < h /\ numPixelsRequired <= w * h.
Proof.
  intros Hn w h.
  assert (Hw : 0 < w) by by apply ceil_sqrt_pos.
  split; [done|]. split; [by apply ceil_div_pos|].
  by destruct (ceil_div_spec numPixelsRequired w Hw).
Qed.

(** ** PixelPacker *)

Lemma length_pixel_of (payload : list byte) (j : nat) : length (pixel_of payload j) = 4.
Proof. reflexivity. Qed.

Lemma length_rgb_of (pixelData : list byte) (j : nat) : length (rgb_of pixelData j) = 3.
Proof. reflexivity. Qed.

(** Fixed-size blocks laid end to end. *)
Lemma length_blocks (f : nat -> list byte) (n s k : nat) :
  (forall j, length (f j) = n) ->
  length (concat (map f (seq s k))) = n * k.
Proof.
  intros Hf. revert s. induction k as [|k IH]; intros s; simpl; [lia|].
  rewrite length_app, Hf, IH. lia.
Qed.

Lemma get_blocks (f : nat -> list byte) (n s k j c : nat) (rest : list byte) :
  (forall j, length (f j) = n) -> j < k -> c < n ->
  get (concat (map f (seq s k)) ++ rest) (n * j + c) = get (f (s + j)) c.
Proof.
  intros Hf. revert s j. induction k as [|k IH]; intros s j Hj Hc; [lia|].
  simpl. rewrite <- app_assoc. destruct j as [|j].
  - rewrite Nat.mul_0_r, Nat.add_0_l, Nat.add_0_r.
    apply get_app_l. by rewrite Hf.
  - replace (n * S j + c) with (length (f s) + (n * j + c))
      by (rewrite Hf, Nat.mul_succ_r; lia).
    rewrite get_app_r, IH by lia. by replace (S s + j) with (s + S j) by lia.
Qed.

Lemma blocks_snoc (f : nat -> list byte) (k : nat) :
  concat (map f (seq 0 (S k))) = concat (map f (seq 0 k)) ++ f k.
Proof.
  rewrite seq_S, map_app, concat_app. simpl. by rewrite app_nil_r.
Qed.

Lemma length_packed_pixels (payload : list byte) (k : nat) :
  length (packed_pixels payload k) = 4 * k.
Proof. apply length_blocks, length_pixel_of. Qed.

Lemma length_unpacked_bytes (pixelData : list byte) (k : nat) :
  length (unpacked_bytes pixelData k) = 3 * k.
Proof. apply length_blocks, length_rgb_of. Qed.

(** One channel write: the slot receives payload byte [m], or 0 past the
    end of the payload, and the payload index saturates at the length. *)
Lemma write_channel_spec (fullPayload data : list byte) (slot m : nat) :
  write_channel fullPayload (length fullPayload) data slot (m `min` length fullPayload)
  = (<[slot := get fullPayload m]> data, S m `min` length fullPayload).
Proof.
  unfold write_channel.
  destruct (Nat.ltb_spec (m `min` length fullPayload) (length fullPayload)) as [Hlt|Hge].
  - replace (m `min` length fullPayload) with m by lia. f_equal. lia.
  - rewrite (get_ge fullPayload m) by lia. f_equal. lia.
Qed.

(** Writing one pixel at the start of the still blank part of the image. *)
Lemma write_pixel (pre : list byte) (r g b a : byte) (m : nat) :
  <[length pre + 3 := a]>
    (<[length pre + 2 := b]>
      (<[length pre + 1 := g]>
        (<[length pre := r]> (pre ++ replicate (4 * S m) x00))))
  = (pre ++ [r; g; b; a]) ++ replicate (4 * m) x00.
Proof.
  replace (4 * S m) with (S (S (S (S (4 * m))))) by lia.
  rewrite <- (Nat.add_0_r (length pre)) at 4.
  rewrite !insert_app_r. simpl. by rewrite <- app_assoc.
Qed.

(** One iteration of the packing loop, at pixel [k] of a [W]-pixel image. *)
Lemma pack_loop_step (fuel : nat) (fullPayload : list byte) (P W k : nat) :
  k < W ->
  pack_loop (S fuel) fullPayload (length fullPayload) P
    (packed_pixels fullPayload k ++ replicate (4 * (W - k)) x00)
    (4 * k) ((3 * k) `min` length fullPayload)
  = if (length fullPayload <=? (3 * S k) `min` length fullPayload) && (P - 1 <=? k)
    then Ok (packed_pixels fullPayload (S k) ++ replicate (4 * (W - S k)) x00)
    else pack_loop fuel fullPayload (length fullPayload) P
           (packed_pixels fullPayload (S k) ++ replicate (4 * (W - S k)) x00)
           (4 * S k) ((3 * S k) `min` length fullPayload).
Proof.
  intros Hk. cbn [pack_loop].
  destruct (Nat.ltb_spec (4 * k)
              (length (packed_pixels fullPayload k ++ replicate (4 * (W - k)) x00)))
    as [_|Hge].
  2:{ rewrite length_app, length_packed_pixels, length_replicate in Hge. lia. }
  rewrite write_channel_spec.
  rewrite write_channel_spec.
  rewrite write_channel_spec.
  replace (S (S (S (3 * k)))) with (3 * S k) by lia.
  replace (4 * k / 4) with k by (rewrite Nat.mul_comm, Nat.div_mul; lia).
  replace (4 * k + 4) with (4 * S k) by lia.
  replace (W - k) with (S (W - S k)) by lia.
  assert (Hdata :
    <[4 * k + 3 := xff]>
      (<[4 * k + 2 := get fullPayload (S (S (3 * k)))]>
        (<[4 * k + 1 := get fullPayload (S (3 * k))]>
          (<[4 * k := get fullPayload (3 * k)]>
            (packed_pixels fullPayload k ++ replicate (4 * S (W - S k)) x00))))
    = packed_pixels fullPayload (S k) ++ replicate (4 * (W - S k)) x00).
  { rewrite <- (length_packed_pixels fullPayload k), write_pixel.
    unfold packed_pixels. rewrite blocks_snoc. unfold pixel_of at 3.
    by replace (S (3 * k)) with (3 * k + 1) by lia;
       replace (S (3 * k + 1)) with (3 * k + 2) by lia. }
  by rewrite Hdata.
Qed.

(** The packing loop writes the [P] payload pixels and stops. *)
Lemma pack_loop_spec (fullPayload : list byte) (P W : nat) :
  3 * (P - 1) < length fullPayload <= 3 * P -> P <= W ->
  forall d k fuel, k + S d = P -> S d <= fuel ->
  pack_loop fuel fullPayload (length fullPayload) P
    (packed_pixels fullPayload k ++ replicate (4 * (W - k)) x00)
    (4 * k) ((3 * k) `min` length fullPayload)
  = Ok (packed_pixels fullPayload P ++ replicate (4 * (W - P)) x00).
Proof.
  intros HP HW. induction d as [|d IH]; intros k fuel Hk Hfuel;
    (destruct fuel as [|fuel]; [lia|]); rewrite pack_loop_step by lia.
  - destruct (Nat.leb_spec (length fullPayload) ((3 * S k) `min` length fullPayload));
      [|lia].
    destruct (Nat.leb_spec (P - 1) k); [|lia].
    cbn [andb]. replace (S k) with P by lia. reflexivity.
  - destruct (Nat.leb_spec (P - 1) k); [lia|].
    rewrite andb_false_r. apply IH; lia.
Qed.

(** The closed form of the grid [pack] produces for a non-empty payload. *)
Lemma pack_eq (fullPayload : list byte) :
  0 < length fullPayload ->
  let P := ceil_div (length fullPayload) 3 in
  let w := ceil_sqrt P in
  let h := ceil_div P w in
  pack fullPayload
  = Ok (mkCanvas w h (packed_pixels fullPayload P ++ replicate (4 * (w * h - P)) x00)).
Proof.
  intros HN P w h. unfold pack, BYTES_PER_PIXEL. fold P. fold w. fold h.
  destruct (ceil_div_spec (length fullPayload) 3 ltac:(lia)) as [HP1 HP2]. fold P in HP1, HP2.
  assert (HPpos : 0 < P) by lia.
  destruct (grid_capacity P HPpos) as (Hw & Hh & HW). fold w in Hw, Hh, HW. fold h in Hh, HW.
  unfold createImageData.
  destruct (Nat.eqb_spec w 0); [lia|]. destruct (Nat.eqb_spec h 0); [lia|].
  cbn [orb]. rewrite bind_Ok. cbn [data]. rewrite length_replicate.
  assert (Hloop :
    pack_loop (w * h * 4) fullPayload (length fullPayload) P (replicate (w * h * 4) x00) 0 0
    = Ok (packed_pixels fullPayload P ++ replicate (4 * (w * h - P)) x00)).
  { replace (w * h * 4) with (4 * (w * h - 0)) by lia.
    exact (pack_loop_spec fullPayload P (w * h) ltac:(lia) HW (P - 1) 0
             (4 * (w * h - 0)) ltac:(lia) ltac:(nia)). }
  by rewrite Hloop.
Qed.

(** ** PixelUnpacker *)

Lemma write_rgb (pre : list byte) (r g b : byte) (m : nat) :
  <[S (S (length pre)) := b]>
    (<[S (length pre) := g]>
      (<[length pre := r]> (pre ++ replicate (3 * S m) x00)))
  = (pre ++ [r; g; b]) ++ replicate (3 * m) x00.
Proof.
  replace (3 * S m) with (S (S (S (3 * m)))) by lia.
  replace (S (S (length pre))) with (length pre + 2) by lia.
  replace (S (length pre)) with (length pre + 1) by lia.
  rewrite <- (Nat.add_0_r (length pre)) at 3.
  rewrite !insert_app_r. simpl. by rewrite <- app_assoc.
Qed.

(** One iteration of the unpacking loop, at pixel [k] of [W]. *)
Lemma unpack_loop_step (fuel : nat) (pixelData : list byte) (W k : nat) :
  W = length pixelData / 4 -> k < W ->
  unpack_loop (S fuel) pixelData (W * 3)
    (unpacked_bytes pixelData k ++ replicate (3 * (W - k)) x00) (4 * k) (3 * k)
  = unpack_loop fuel pixelData (W * 3)
      (unpacked_bytes pixelData (S k) ++ replicate (3 * (W - S k)) x00)
      (4 * S k) (3 * S k).
Proof.
  intros HW Hk. cbn [unpack_loop].
  pose proof (Nat.div_mod_eq (length pixelData) 4) as Hdm.
  destruct (Nat.ltb_spec (4 * k) (length pixelData)); [|lia].
  destruct (Nat.ltb_spec (3 * k) (W * 3)); [|lia].
  destruct (Nat.ltb_spec (S (3 * k)) (W * 3)); [|lia].
  destruct (Nat.ltb_spec (S (S (3 * k))) (W * 3)); [|lia].
  cbn [andb].
  replace (4 * k + 4) with (4 * S k) by lia.
  replace (S (S (S (3 * k)))) with (3 * S k) by lia.
  f_equal.
  replace (W - k) with (S (W - S k)) by lia.
  rewrite <- (length_unpacked_bytes pixelData k), write_rgb.
  unfold unpacked_bytes. by rewrite blocks_snoc.
Qed.

Lemma unpack_loop_spec (pixelData : list byte) (W : nat) :
  W = length pixelData / 4 ->
  forall d k fuel, k + d = W -> d <= fuel ->
  unpack_loop fuel pixelData (W * 3)
    (unpacked_bytes pixelData k ++ replicate (3 * (W - k)) x00) (4 * k) (3 * k)
  = Ok (unpacked_bytes pixelData W).
Proof.
  intros HW. induction d as [|d IH]; intros k fuel Hk Hfuel.
  - assert (k = W) by lia. subst k.
    replace (W - W) with 0 by lia. simpl replicate. rewrite app_nil_r.
    destruct fuel; cbn [unpack_loop];
      (destruct (Nat.ltb_spec (3 * W) (W * 3)); [lia|]); by rewrite andb_false_r.
  - destruct fuel as [|fuel]; [lia|].
    rewrite unpack_loop_step by lia. apply IH; lia.
Qed.

(** [unpack] never fails: it returns the R, G, B bytes of every pixel. *)
Lemma unpack_eq (pixelData : list byte) :
  unpack pixelData = Ok (unpacked_bytes pixelData (length pixelData / 4)).
Proof.
  unfold unpack, BYTES_PER_PIXEL.
  set (W := length pixelData / 4).
  pose proof (Nat.div_mod_eq (length pixelData) 4) as Hdm.
  replace (replicate (W * 3) x00)
    with (unpacked_bytes pixelData 0 ++ replicate (3 * (W - 0)) x00)
    by (simpl; f_equal; lia).
  apply (unpack_loop_spec pixelData W eq_refl W 0); lia.
Qed.

(** The bytes of a packed image: payload bytes in the colour slots, zeros
    past the end of the payload. *)
Lemma get_packed_rgb (fullPayload : list byte) (P W j c : nat) :
  length fullPayload <= 3 * P -> c < 3 ->
  get (packed_pixels fullPayload P ++ replicate (4 * (W - P)) x00) (4 * j + c)
  = get fullPayload (3 * j + c).
Proof.
  intros HP Hc. destruct (decide (j < P)) as [Hj|Hj].
  - unfold packed_pixels.
    rewrite (get_blocks _ 4); [|apply length_pixel_of|lia|lia].
    destruct c as [|[|[|c]]]; [by rewrite Nat.add_0_r|reflexivity|reflexivity|lia].
  - rewrite (get_ge fullPayload) by lia.
    replace (4 * j + c) with (length (packed_pixels fullPayload P) + (4 * (j - P) + c))
      by (rewrite length_packed_pixels; lia).
    by rewrite get_app_r, get_replicate.
Qed.

(** The alpha bytes: 255 in the [P] pixels written, 0 after them. *)
Lemma get_packed_alpha (fullPayload : list byte) (P W j : nat) :
  get (packed_pixels fullPayload P ++ replicate (4 * (W - P)) x00) (4 * j + 3)
  = if j <? P then xff else x00.
Proof.
  destruct (Nat.ltb_spec j P) as [Hj|Hj].
  - unfold packed_pixels.
    by rewrite (get_blocks _ 4); [|apply length_pixel_of|lia|lia].
  - replace (4 * j + 3) with (length (packed_pixels fullPayload P) + (4 * (j - P) + 3))
      by (rewrite length_packed_pixels; lia).
    by rewrite get_app_r, get_replicate.
Qed.

Lemma lookup_get (l : list byte) (i : nat) : i < length l -> l !! i = Some (get l i).
Proof.
  intros Hi. unfold get. by destruct (lookup_lt_is_Some_2 l i Hi) as [b ->].
Qed.

(** Unpacking a packed grid reads the payload back, followed by zeros. *)
Lemma unpacked_packed (fullPayload : list byte) (P W : nat) :
  length fullPayload <= 3 * P -> P <= W ->
  unpacked_bytes (packed_pixels fullPayload P ++ replicate (4 * (W - P)) x00) W
  = fullPayload ++ replicate (3 * W - length fullPayload) x00.
Proof.
  intros HP HW.
  set (pixelData := packed_pixels fullPayload P ++ replicate (4 * (W - P)) x00).
  assert (Hget : forall j c, c < 3 -> get pixelData (4 * j + c) = get fullPayload (3 * j + c)).
  { intros j c Hc. by apply get_packed_rgb. }
  assert (Hu : forall n, unpacked_bytes pixelData n = map (get fullPayload) (seq 0 (3 * n))).
  { clearbody pixelData. unfold unpacked_bytes. induction n as [|n IH]; [done|].
    rewrite blocks_snoc, IH.
    replace (3 * S n) with (3 * n + 3) by lia.
    rewrite seq_app, map_app. f_equal. unfold rgb_of. cbn [seq map].
    rewrite <- (Nat.add_0_r (4 * n)) at 1. rewrite !Hget by lia.
    cbn [Nat.add]. by repeat (f_equal; try lia). }
  rewrite Hu.
  replace (3 * W) with (length fullPayload + (3 * W - length fullPayload)) at 1 by lia.
  rewrite seq_app, map_app, map_get_seq. f_equal.
  apply list_eq. intros i. rewrite list_lookup_fmap.
  destruct (decide (i < 3 * W - length fullPayload)) as [Hi|Hi].
  - rewrite lookup_seq_lt, lookup_replicate_2 by done. simpl.
    by rewrite get_ge by lia.
  - rewrite lookup_seq_ge by lia. simpl. symmetry. apply lookup_replicate_None. lia.
Qed.

(** ** Samples and their bytes *)

Lemma length_Float32Array_buffer (a : list float32) :
  length (Float32Array_buffer a) = 4 * length a.
Proof.
  induction a as [|[a0 a1 a2 a3] a IH]; simpl; [done|]. rewrite IH. lia.
Qed.

Lemma Float32Array_new_buffer (a : list float32) :
  Float32Array_new (Float32Array_buffer a) = Ok a.
Proof.
  induction a as [|[a0 a1 a2 a3] a IH]; simpl; [done|]. by rewrite IH.
Qed.

(** Induction four bytes at a time. *)
Lemma list_ind4 (P : list byte -> Prop) :
  P [] -> (forall a, P [a]) -> (forall a b, P [a; b]) -> (forall a b c, P [a; b; c]) ->
  (forall a b c d l, P l -> P (a :: b :: c :: d :: l)) ->
  forall l, P l.
Proof.
  intros H0 H1 H2 H3 H4.
  fix IH 1. intros [|a [|b [|c [|d l]]]];
    [apply H0|apply H1|apply H2|apply H3|apply H4, IH].
Qed.

Lemma Float32Array_new_length (buffer : list byte) :
  match Float32Array_new buffer with
  | Ok floats => length buffer = 4 * length floats
  | Err e => e = RangeError /\ length buffer mod 4 <> 0
  end.
Proof.
  induction buffer as [| | | |a b c d l IH] using list_ind4; try (simpl; done).
  change (Float32Array_new (a :: b :: c :: d :: l))
    with (floats ← Float32Array_new l; Ok (F32 a b c d :: floats)).
  destruct (Float32Array_new l) as [floats|e].
  - rewrite bind_Ok. cbn [length]. lia.
  - rewrite bind_Err. destruct IH as [-> Hm]. split; [done|]. cbn [length].
    replace (S (S (S (S (length l))))) with (length l + 1 * 4) by lia.
    by rewrite Nat.Div0.mod_add.
Qed.

(** ** PayloadCodec.parse on an assembled payload *)

Lemma parse_assembled (salt iv cipherBytes pad : list byte) (rate : Z) :
  length salt = 16 -> length iv = 12 ->
  (Z.of_nat (length cipherBytes) < 2 ^ 32)%Z -> (0 <= rate < 2 ^ 32)%Z ->
  parse ((salt ++ iv ++ u32_be (Z.of_nat (length cipherBytes)) ++ u32_be rate
          ++ cipherBytes) ++ pad)
  = Ok (mkParsed salt iv (Z.of_nat (length cipherBytes)) rate cipherBytes).
Proof.
  intros Hs Hi Hlen Hrate. unfold parse.
  set (len := Z.of_nat (length cipherBytes)) in *.
  set (all := (salt ++ iv ++ u32_be len ++ u32_be rate ++ cipherBytes) ++ pad).
  assert (Hall : length all = 36 + length cipherBytes + length pad).
  { unfold all. rewrite !length_app, !length_u32_be, Hs, Hi. lia. }
  destruct (Nat.ltb_spec (length all) HEADER_LENGTH) as [Hlt|_].
  { unfold HEADER_LENGTH, SALT_LENGTH, IV_LENGTH, CIPHERTEXT_LENGTH_BYTES,
      SAMPLE_RATE_BYTES in Hlt. lia. }
  assert (H28 : DataView_getUint32 all (SALT_LENGTH + IV_LENGTH) = Ok len).
  { replace (SALT_LENGTH + IV_LENGTH) with (length (salt ++ iv))
      by (rewrite length_app, Hs, Hi; done).
    unfold all. rewrite <- !app_assoc.
    rewrite (app_assoc salt iv). apply DataView_getUint32_u32_be. lia. }
  assert (H32 : DataView_getUint32 all (SALT_LENGTH + IV_LENGTH + CIPHERTEXT_LENGTH_BYTES)
                = Ok rate).
  { replace (SALT_LENGTH + IV_LENGTH + CIPHERTEXT_LENGTH_BYTES)
      with (length (salt ++ iv ++ u32_be len))
      by (rewrite !length_app, length_u32_be, Hs, Hi; done).
    unfold all. rewrite <- !app_assoc.
    rewrite (app_assoc iv), (app_assoc salt).
    by apply DataView_getUint32_u32_be. }
  rewrite H28, bind_Ok, H32, bind_Ok.
  destruct (Z.ltb_spec (Z.of_nat (length all)) (Z.of_nat HEADER_LENGTH + len)) as [Hlt|_].
  { unfold HEADER_LENGTH, SALT_LENGTH, IV_LENGTH, CIPHERTEXT_LENGTH_BYTES,
      SAMPLE_RATE_BYTES in Hlt. lia. }
  f_equal. unfold slice, all. f_equal.
  - rewrite <- !app_assoc, drop_0. by rewrite take_app_length'.
  - rewrite <- !app_assoc, drop_app_length' by done. by rewrite take_app_length'.
  - replace (Z.to_nat (Z.of_nat HEADER_LENGTH + len) - HEADER_LENGTH)
      with (length cipherBytes) by (unfold len; lia).
    rewrite <- !app_assoc.
    rewrite (app_assoc (u32_be len)), (app_assoc iv), (app_assoc salt).
    rewrite drop_app_length' by (rewrite !length_app, !length_u32_be, Hs, Hi; done).
    by rewrite take_app_length.
Qed.

(** ** The strength rules *)

Lemma some_class (c : N) : is_lower c || is_upper c || is_digit c || is_non_alnum c = true.
Proof.
  unfold is_non_alnum. by destruct (is_lower c), (is_upper c), (is_digit c).
Qed.

Lemma some_class_present (password : jsstring) :
  password <> [] ->
  regex_test is_lower password || regex_test is_upper password
  || regex_test is_digit password || regex_test is_non_alnum password = true.
Proof.
  destruct password as [|c password]; [done|intros _].
  unfold regex_test. simpl. pose proof (some_class c) as Hc.
  destruct (is_lower c), (is_upper c), (is_digit c), (is_non_alnum c);
    simpl in *; try done; by rewrite ?orb_true_r.
Qed.

Lemma existsb_Exists (cls : N -> bool) (C : N -> Prop) (s : jsstring) :
  (forall c, cls c = true <-> C c) ->
  existsb cls s = true <-> Exists C s.
Proof.
  intros Hc. rewrite existsb_exists, Exists_exists.
  split; intros (c & Hin & Hcls); exists c; (split; [by apply list_elem_of_In|by apply Hc]).
Qed.

Lemma is_lower_spec (c : N) : is_lower c = true <-> lowercase c.
Proof. unfold is_lower, lowercase. rewrite andb_true_iff, !N.leb_le. tauto. Qed.
Lemma is_upper_spec (c : N) : is_upper c = true <-> uppercase c.
Proof. unfold is_upper, uppercase. rewrite andb_true_iff, !N.leb_le. tauto. Qed.
Lemma is_digit_spec (c : N) : is_digit c = true <-> digit c.
Proof. unfold is_digit, digit. rewrite andb_true_iff, !N.leb_le. tauto. Qed.
Lemma is_non_alnum_spec (c : N) : is_non_alnum c = true <-> non_alphanumeric c.
Proof.
  unfold is_non_alnum, non_alphanumeric.
  rewrite negb_true_iff, <- not_true_iff_false, !orb_true_iff.
  rewrite is_lower_spec, is_upper_spec, is_digit_spec. tauto.
Qed.

Lemma point_regex_test (cls : N -> bool) (C : N -> Prop) `{forall c, Decision (C c)}
    (s : jsstring) :
  (forall c, cls c = true <-> C c) ->
  (if regex_test cls s then 1%Z else 0%Z) = point (Exists C s).
Proof.
  intros Hc. unfold point, regex_test.
  pose proof (existsb_Exists cls C s Hc) as Hiff.
  destruct (decide (Exists C s)) as [He|He], (existsb cls s) eqn:Eb;
    try done; [by apply Hiff in He|by destruct He; apply Hiff].
Qed.

Lemma point_range (criterion : Prop) `{Decision criterion} : (0 <= point criterion <= 1)%Z.
Proof. unfold point. destruct (decide criterion); lia. Qed.

(** The sequence of increments of [checkPasswordStrength] adds up to
    [spec_score]. *)
Lemma checkPasswordStrength_score (password : jsstring) :
  6 <= length password ->
  score (checkPasswordStrength password) = spec_score password /\
  text (checkPasswordStrength password) = spec_level (spec_score password).
Proof.
  intros Hlen. unfold spec_score, spec_level.
  rewrite <- (point_regex_test is_lower lowercase password is_lower_spec).
  rewrite <- (point_regex_test is_upper uppercase password is_upper_spec).
  rewrite <- (point_regex_test is_digit digit password is_digit_spec).
  rewrite <- (point_regex_test is_non_alnum non_alphanumeric password is_non_alnum_spec).
  unfold checkPasswordStrength, point.
  destruct (Nat.ltb_spec (length password) 6); [lia|].
  destruct (Nat.leb_spec 12 (length password)), (decide (12 <= length password));
    try lia;
    destruct (regex_test is_lower password), (regex_test is_upper password),
      (regex_test is_digit password), (regex_test is_non_alnum password);
    split; reflexivity.
Qed.

Lemma checkPasswordStrength_short (password : jsstring) :
  length password < 6 -> checkPasswordStrength password = mkStrength 0 TooShort weak.
Proof.
  intros Hlen. unfold checkPasswordStrength.
  by destruct (Nat.ltb_spec (length password) 6); [|lia].
Qed.

Lemma checkPasswordStrength_ge_2 (password : jsstring) :
  6 <= length password -> (2 <= score (checkPasswordStrength password))%Z.
Proof.
  intros Hlen.
  assert (Hne : password <> []) by (destruct password; simpl in *; [lia|done]).
  pose proof (some_class_present password Hne) as Hc.
  unfold checkPasswordStrength.
  destruct (Nat.ltb_spec (length password) 6); [lia|].
  destruct (12 <=? length password),
    (regex_test is_lower password), (regex_test is_upper password),
    (regex_test is_digit password), (regex_test is_non_alnum password);
    simpl in *; try done; lia.
Qed.

(** ** AES-GCM as a mode of operation *)

Lemma byte_xor_involutive (m a : byte) : byte_xor m (byte_xor m a) = a.
Proof.
  unfold byte_xor. rewrite Byte.to_bits_of_bits.
  rewrite <- (Byte.of_bits_to_bits a) at 2. f_equal.
  destruct (Byte.to_bits m) as (m0 & m1 & m2 & m3 & m4 & m5 & m6 & m7).
  destruct (Byte.to_bits a) as (a0 & a1 & a2 & a3 & a4 & a5 & a6 & a7).
  unfold xor_bits. by rewrite <- !xorb_assoc, !xorb_nilpotent, !xorb_false_l.
Qed.

Lemma bytes_eqb_eq (a b : list byte) : bytes_eqb a b = true <-> a = b.
Proof.
  revert b. induction a as [|x a IH]; intros [|y b]; simpl; try done.
  rewrite andb_true_iff, IH. split.
  - intros [Hxy ->]. by rewrite (Byte.byte_dec_bl _ _ Hxy).
  - intros [= -> ->]. by rewrite (Byte.byte_dec_lb eq_refl).
Qed.

Section AesGcm.
Context {P : Platform}.

Lemma length_GCTR (key : CryptoKey) (iv data : list byte) :
  length (GCTR key iv data) = length data.
Proof. apply length_imap. Qed.

(** Counter mode is its own inverse. *)
Lemma GCTR_involutive (key : CryptoKey) (iv data : list byte) :
  GCTR key iv (GCTR key iv data) = data.
Proof.
  apply list_eq. intros i. unfold GCTR. rewrite !list_lookup_imap.
  destruct (data !! i) as [b|]; simpl; [|done]. by rewrite byte_xor_involutive.
Qed.

Lemma length_tag_of (key : CryptoKey) (iv ciphertext : list byte) :
  length (tag_of key iv ciphertext) = 16.
Proof. unfold tag_of. by rewrite length_map, length_seq. Qed.

(** The ciphertext is the plaintext's length plus the 16-byte tag. *)
Lemma AES_GCM_encrypt_length (key : CryptoKey) (iv data : list byte) :
  length (AES_GCM_encrypt key iv data) = length data + 16.
Proof.
  unfold AES_GCM_encrypt. by rewrite length_app, length_GCTR, length_tag_of.
Qed.

(** Decryption accepts exactly the outputs of encryption under the same
    key and nonce, and returns what was encrypted. *)
Lemma AES_GCM_decrypt_Some (key : CryptoKey) (iv data plaintext : list byte) :
  AES_GCM_decrypt key iv data = Some plaintext
  <-> data = AES_GCM_encrypt key iv plaintext.
Proof.
  unfold AES_GCM_decrypt, AES_GCM_encrypt, TAG_LENGTH. split.
  - destruct (Nat.ltb_spec (length data) 16) as [|Hlen]; [done|].
    destruct (bytes_eqb _ _) eqn:Htag; [|done]. intros [= <-].
    apply bytes_eqb_eq in Htag.
    rewrite GCTR_involutive, <- Htag. by rewrite take_drop.
  - intros ->.
    rewrite length_app, length_GCTR, length_tag_of.
    destruct (Nat.ltb_spec (length plaintext + 16) 16); [lia|].
    replace (length plaintext + 16 - 16) with (length (GCTR key iv plaintext))
      by (rewrite length_GCTR; lia).
    rewrite take_app_length, drop_app_length.
    rewrite (proj2 (bytes_eqb_eq _ _) eq_refl). by rewrite GCTR_involutive.
Qed.

Lemma AES_GCM_decrypt_encrypt (key : CryptoKey) (iv data : list byte) :
  AES_GCM_decrypt key iv (AES_GCM_encrypt key iv data) = Some data.
Proof. by apply AES_GCM_decrypt_Some. Qed.

(** An input too short to hold a tag is rejected. *)
Lemma AES_GCM_decrypt_short (key : CryptoKey) (iv data : list byte) :
  length data < 16 -> AES_GCM_decrypt key iv data = None.
Proof.
  intros Hlen. unfold AES_GCM_decrypt, TAG_LENGTH.
  by destruct (Nat.ltb_spec (length data) 16); [|lia].
Qed.

(** A change in the tag of an encryption is always rejected. *)
Lemma AES_GCM_decrypt_tag_changed (key : CryptoKey) (iv data : list byte)
    (i : nat) (b : byte) :
  length data <= i < length data + 16 ->
  AES_GCM_encrypt key iv data !! i <> Some b ->
  AES_GCM_decrypt key iv (<[i := b]> (AES_GCM_encrypt key iv data)) = None.
Proof.
  intros Hi Hb.
  destruct (AES_GCM_decrypt key iv (<[i := b]> (AES_GCM_encrypt key iv data)))
    as [plaintext|] eqn:Hdec; [|done].
  apply AES_GCM_decrypt_Some in Hdec. exfalso. apply Hb.
  assert (Hci : <[i := b]> (AES_GCM_encrypt key iv data) !! i = Some b).
  { apply list_lookup_insert_eq. rewrite AES_GCM_encrypt_length. lia. }
  assert (Hlen : length plaintext = length data).
  { apply (f_equal length) in Hdec.
    rewrite length_insert, !AES_GCM_encrypt_length in Hdec. lia. }
  assert (Hc : GCTR key iv plaintext = GCTR key iv data).
  { apply (f_equal (take (length data))) in Hdec.
    unfold AES_GCM_encrypt in Hdec.
    rewrite take_insert_ge in Hdec by lia.
    rewrite <- Hlen in Hdec at 2.
    rewrite <- (length_GCTR key iv data) in Hdec at 1.
    rewrite <- (length_GCTR key iv plaintext) in Hdec.
    by rewrite !take_app_length in Hdec. }
  rewrite <- Hci, Hdec. unfold AES_GCM_encrypt. by rewrite Hc.
Qed.
End AesGcm.

(** ** The encrypt pipeline never fails past the strength gate *)

Lemma length_getRandomValues (n : nat) (rs : RandomSource) :
  length (getRandomValues n rs).1 = n.
Proof. simpl. by rewrite length_map, length_seq. Qed.

Section Encrypt.
Context {P : Platform}.

Lemma encryptPayload_eq (audioBuffer : AudioBuffer) (pass : jsstring) (rs : RandomSource) :
  encryptPayload audioBuffer pass rs
  = Ok (salt_of rs ++ iv_of rs
        ++ u32_be (Z.of_nat (length (cipher_of audioBuffer pass rs)) mod 2 ^ 32)
        ++ u32_be (sampleRate audioBuffer mod 2 ^ 32)
        ++ cipher_of audioBuffer pass rs,
        (getRandomValues IV_LENGTH (getRandomValues SALT_LENGTH rs).2).2).
Proof.
  unfold encryptPayload, cipher_of, salt_of, iv_of.
  destruct (getRandomValues SALT_LENGTH rs) as [salt rs1] eqn:E1.
  destruct (getRandomValues IV_LENGTH rs1) as [iv rs2] eqn:E2.
  cbn [fst snd]. rewrite E2. cbn [fst snd].
  rewrite assemble_eq; [done|..].
  - pose proof (length_getRandomValues SALT_LENGTH rs) as Hl. by rewrite E1 in Hl.
  - pose proof (length_getRandomValues IV_LENGTH rs1) as Hl. by rewrite E2 in Hl.
Qed.

Lemma length_payload (audioBuffer : AudioBuffer) (pass : jsstring) (rs : RandomSource)
    (fullPayload : list byte) (rs' : RandomSource) :
  encryptPayload audioBuffer pass rs = Ok (fullPayload, rs') ->
  length fullPayload = 36 + length (cipher_of audioBuffer pass rs).
Proof.
  rewrite encryptPayload_eq. intros Heq.
  apply (f_equal (fun r => match r with Ok (p, _) => length p | Err _ => 0 end)) in Heq.
  rewrite <- Heq.
  rewrite !length_app, !length_u32_be.
  unfold salt_of, iv_of. rewrite !length_getRandomValues. done.
Qed.

(** Past the two passphrase checks, encryption returns a canvas. *)
Lemma encryptAudioToImage_total (audioBuffer : AudioBuffer) (pass : jsstring)
    (rs : RandomSource) :
  falsy pass = false -> (2 <= score (checkPasswordStrength pass))%Z ->
  exists fullPayload canvas rs',
    encryptPayload audioBuffer pass rs = Ok (fullPayload, rs') /\
    pack fullPayload = Ok canvas /\
    encryptAudioToImage audioBuffer pass rs = Ok (canvas, rs').
Proof.
  intros Hpass Hscore. unfold encryptAudioToImage. rewrite Hpass.
  destruct (Z.ltb_spec (score (checkPasswordStrength pass)) 2); [lia|].
  destruct (encryptPayload audioBuffer pass rs) as [[fullPayload rs']|e] eqn:E;
    [|by rewrite encryptPayload_eq in E].
  pose proof (length_payload _ _ _ _ _ E) as Hlen.
  pose proof (pack_eq fullPayload ltac:(lia)) as Hpack. cbv zeta in Hpack.
  eexists fullPayload, _, rs'. split; [done|]. split; [exact Hpack|].
  rewrite bind_Ok. cbv beta iota. by rewrite Hpack.
Qed.

(** The gate: encryption fails exactly for a score below 2. *)
Lemma encryptAudioToImage_gate (audioBuffer : AudioBuffer) (pass : jsstring)
    (rs : RandomSource) :
  is_Err (encryptAudioToImage audioBuffer pass rs)
  = (score (checkPasswordStrength pass) <? 2)%Z.
Proof.
  destruct (Z.ltb_spec (score (checkPasswordStrength pass)) 2) as [Hlt|Hge].
  - unfold encryptAudioToImage. destruct (falsy pass); [done|].
    by destruct (Z.ltb_spec (score (checkPasswordStrength pass)) 2); [|lia].
  - assert (Hpass : falsy pass = false).
    { destruct pass; [|done]. simpl in Hge. lia. }
    destruct (encryptAudioToImage_total audioBuffer pass rs Hpass Hge)
      as (? & ? & ? & _ & _ & ->). done.
Qed.
End Encrypt.

(** ** Unpacking what was packed *)

Lemma pack_dimensions (fullPayload : list byte) (canvas : Canvas) :
  0 < length fullPayload -> pack fullPayload = Ok canvas ->
  let P := ceil_div (length fullPayload) 3 in
  width canvas = ceil_sqrt P /\
  height canvas = ceil_div P (width canvas) /\
  data canvas = packed_pixels fullPayload P
                ++ replicate (4 * (width canvas * height canvas - P)) x00 /\
  length fullPayload <= 3 * P /\ P <= width canvas * height canvas /\
  length (data canvas) = width canvas * height canvas * 4.
Proof.
  intros HN Hpack P. rewrite pack_eq in Hpack by done. fold P in Hpack.
  assert (Hc : canvas = mkCanvas (ceil_sqrt P) (ceil_div P (ceil_sqrt P))
                 (packed_pixels fullPayload P
                  ++ replicate (4 * (ceil_sqrt P * ceil_div P (ceil_sqrt P) - P)) x00))
    by congruence.
  rewrite Hc. cbn [width height data].
  destruct (ceil_div_spec (length fullPayload) 3 ltac:(lia)) as [HP1 HP2]. fold P in HP1, HP2.
  destruct (grid_capacity P ltac:(lia)) as (Hw & Hh & HW).
  repeat split; try done.
  rewrite length_app, length_packed_pixels, length_replicate. lia.
Qed.

Lemma unpack_pack (fullPayload : list byte) (canvas : Canvas) :
  0 < length fullPayload -> pack fullPayload = Ok canvas ->
  unpack (data canvas)
  = Ok (fullPayload
        ++ replicate (width canvas * height canvas * 3 - length fullPayload) x00).
Proof.
  intros HN Hpack.
  destruct (pack_dimensions fullPayload canvas HN Hpack) as (_ & _ & Hd & HP & HW & Hl).
  rewrite unpack_eq, Hl, Nat.div_mul by lia. rewrite Hd.
  rewrite unpacked_packed by done. do 3 f_equal. lia.
Qed.

(** ** The decrypt pipeline on an encrypted image *)

Section Decrypt.
Context {P : Platform}.

Lemma length_cipher_of (audioBuffer : AudioBuffer) (pass : jsstring) (rs : RandomSource) :
  length (cipher_of audioBuffer pass rs) = 4 * length (channelData audioBuffer) + 16.
Proof.
  unfold cipher_of. by rewrite AES_GCM_encrypt_length, length_Float32Array_buffer.
Qed.

Lemma copyToChannel_createBuffer (floats : list float32) (rate : Z) :
  floats <> [] -> supportsSampleRate rate = true ->
  (buf ← createBuffer (length floats) rate; Ok (copyToChannel buf floats))
  = Ok (mkAudioBuffer rate floats).
Proof.
  intros Hne Hrate. unfold createBuffer. rewrite Hrate.
  destruct (Nat.eqb_spec (length floats) 0) as [E|_].
  { by destruct floats. }
  cbn [orb negb]. rewrite bind_Ok. unfold copyToChannel. cbn [sampleRate channelData].
  rewrite length_replicate, firstn_all, drop_ge by (rewrite length_replicate; lia).
  by rewrite app_nil_r.
Qed.

Lemma decrypt_encrypted (audioBuffer : AudioBuffer) (pass : jsstring) (rs : RandomSource)
    (fullPayload : list byte) (canvas : Canvas) (rs' : RandomSource) :
  (0 < sampleRate audioBuffer <= 192000)%Z ->
  falsy pass = false ->
  AudioBuffer_valid audioBuffer -> fits_length_field audioBuffer ->
  encryptPayload audioBuffer pass rs = Ok (fullPayload, rs') ->
  pack fullPayload = Ok canvas ->
  decryptImageToAudio canvas pass = Ok audioBuffer.
Proof.
  intros Hrate Hpass [Hne Hsup] Hfit Henc Hpack.
  pose proof (length_payload _ _ _ _ _ Henc) as Hlen.
  pose proof (length_cipher_of audioBuffer pass rs) as Hc.
  unfold fits_length_field in Hfit.
  rewrite encryptPayload_eq in Henc.
  rewrite !Z.mod_small in Henc by (change (2 ^ 32)%Z with 4294967296%Z in *; lia).
  assert (Hp : fullPayload
               = salt_of rs ++ iv_of rs
                 ++ u32_be (Z.of_nat (length (cipher_of audioBuffer pass rs)))
                 ++ u32_be (sampleRate audioBuffer)
                 ++ cipher_of audioBuffer pass rs) by congruence.
  unfold decryptImageToAudio. rewrite Hpass.
  rewrite (unpack_pack fullPayload canvas) by (done || lia).
  rewrite bind_Ok. rewrite Hp at 1.
  rewrite parse_assembled;
    [|apply length_getRandomValues|apply length_getRandomValues
     |lia|change (2 ^ 32)%Z with 4294967296%Z; lia].
  rewrite bind_Ok. cbn [parsed_salt parsed_iv parsed_cipher parsed_sampleRate].
  unfold cipher_of at 1. rewrite AES_GCM_decrypt_encrypt.
  rewrite Float32Array_new_buffer, bind_Ok.
  destruct (Z.leb_spec (sampleRate audioBuffer) 0); [lia|].
  destruct (Z.ltb_spec 192000 (sampleRate audioBuffer)); [lia|].
  cbn [orb]. rewrite copyToChannel_createBuffer by done.
  by destruct audioBuffer.
Qed.
(** The pipeline reports the verdict of the primitive: a rejected
    ciphertext is the decryption error, whatever the rest of the header. *)
Lemma decrypt_rejection_reported (canvas : Canvas) (pass : jsstring)
    (payload : list byte) (parsed : Parsed) :
  falsy pass = false ->
  unpack (data canvas) = Ok payload -> parse payload = Ok parsed ->
  AES_GCM_decrypt (deriveKey pass (parsed_salt parsed)) (parsed_iv parsed)
    (parsed_cipher parsed) = None ->
  decryptImageToAudio canvas pass = Err DecryptionFailed.
Proof.
  intros Hpass Hunpack Hparse Hdec. unfold decryptImageToAudio.
  by rewrite Hpass, Hunpack, bind_Ok, Hparse, bind_Ok, Hdec.
Qed.

(** The samples the pipeline returns are the plaintext the primitive
    released for the key derived from the passphrase and the header's salt
    and nonce. *)
Lemma decrypt_returns_released_plaintext (canvas : Canvas) (pass : jsstring)
    (buf : AudioBuffer) :
  decryptImageToAudio canvas pass = Ok buf ->
  exists payload parsed rawDecryptedAudioData,
    unpack (data canvas) = Ok payload /\ parse payload = Ok parsed /\
    AES_GCM_decrypt (deriveKey pass (parsed_salt parsed)) (parsed_iv parsed)
      (parsed_cipher parsed) = Some rawDecryptedAudioData /\
    Float32Array_new rawDecryptedAudioData = Ok (channelData buf) /\
    sampleRate buf = parsed_sampleRate parsed.
Proof.
  unfold decryptImageToAudio. destruct (falsy pass); [done|].
  destruct (unpack (data canvas)) as [payload|e] eqn:Hunpack; [|done]. rewrite bind_Ok.
  destruct (parse payload) as [parsed|e] eqn:Hparse; [|done]. rewrite bind_Ok.
  destruct (AES_GCM_decrypt _ _ _) as [raw|] eqn:Hdec; [|done].
  destruct (Float32Array_new raw) as [floats|e] eqn:Hnew; [|done]. rewrite bind_Ok.
  destruct (_ || _); [done|].
  unfold createBuffer. destruct (_ || _); [done|]. rewrite bind_Ok.
  intros [= <-]. exists payload, parsed, raw.
  split; [done|]. split; [done|]. split; [done|]. split; [|done].
  unfold copyToChannel. cbn [channelData sampleRate].
  rewrite length_replicate, firstn_all, drop_ge by (rewrite length_replicate; lia).
  by rewrite app_nil_r.
Qed.

(** The blank image, whose sample rate field is 0, fails at decryption:
    its empty ciphertext cannot hold a tag. *)
Lemma blank_canvas_fails_decryption (pass : jsstring) :
  falsy pass = false ->
  decryptImageToAudio blank_canvas pass = Err DecryptionFailed.
Proof.
  intros Hpass.
  apply (decrypt_rejection_reported blank_canvas pass (replicate 36 x00)
           (mkParsed (replicate 16 x00) (replicate 12 x00) 0 0 []));
    [done|reflexivity|reflexivity|].
  apply AES_GCM_decrypt_short. simpl. lia.
Qed.
End Decrypt.

Lemma getUint32_declared_length (payload : list byte) :
  32 <= length payload ->
  DataView_getUint32 payload (SALT_LENGTH + IV_LENGTH) = Ok (declared_length payload).
Proof.
  intros Hlen. unfold DataView_getUint32.
  change (SALT_LENGTH + IV_LENGTH + 4) with 32.
  by destruct (Nat.ltb_spec (length payload) 32); [lia|].
Qed.

Lemma getUint32_declared_rate (payload : list byte) :
  36 <= length payload ->
  DataView_getUint32 payload (SALT_LENGTH + IV_LENGTH + CIPHERTEXT_LENGTH_BYTES)
  = Ok (declared_rate payload).
Proof.
  intros Hlen. unfold DataView_getUint32.
  change (SALT_LENGTH + IV_LENGTH + CIPHERTEXT_LENGTH_BYTES + 4) with 36.
  by destruct (Nat.ltb_spec (length payload) 36); [lia|].
Qed.

(** * The claims *)

(** ** C2: the layout of the payload *)

(** C2.  For a 16-byte salt, a 12-byte nonce, a ciphertext and a sample
    rate, [assemble] returns a payload whose bytes 0-15 are the salt, bytes
    16-27 the nonce, bytes 28-31 the ciphertext length as an unsigned
    32-bit big-endian integer, bytes 32-35 the sample rate as an unsigned
    32-bit big-endian integer and bytes 36 onward the ciphertext; its length
    is 36 plus the ciphertext length.  (An unsigned 32-bit field holds its
    value modulo 2^32: the value itself when it is below 2^32.) *)
Theorem assemble_layout (salt iv cipherBytes : list byte) (originalSampleRate : Z) :
  length salt = 16 -> length iv = 12 ->
  exists payload,
    assemble salt iv cipherBytes originalSampleRate = Ok payload /\
    take 16 payload = salt /\
    take 12 (drop 16 payload) = iv /\
    take 4 (drop 28 payload) = u32_be (Z.of_nat (length cipherBytes) mod 2 ^ 32) /\
    declared_length payload = (Z.of_nat (length cipherBytes) mod 2 ^ 32)%Z /\
    ((Z.of_nat (length cipherBytes) < 2 ^ 32)%Z ->
     declared_length payload = Z.of_nat (length cipherBytes)) /\
    take 4 (drop 32 payload) = u32_be (originalSampleRate mod 2 ^ 32) /\
    declared_rate payload = (originalSampleRate mod 2 ^ 32)%Z /\
    ((0 <= originalSampleRate < 2 ^ 32)%Z ->
     declared_rate payload = originalSampleRate) /\
    drop 36 payload = cipherBytes /\
    length payload = 36 + length cipherBytes.
Proof.
  intros Hs Hi. eexists. split; [by apply assemble_eq|].
  set (len := (Z.of_nat (length cipherBytes) mod 2 ^ 32)%Z).
  set (rate := (originalSampleRate mod 2 ^ 32)%Z).
  assert (Hlen : (0 <= len < 2 ^ 32)%Z) by (apply Z.mod_pos_bound; lia).
  assert (Hrate : (0 <= rate < 2 ^ 32)%Z) by (apply Z.mod_pos_bound; lia).
  assert (H28 : forall c, c < 4 ->
            get (salt ++ iv ++ u32_be len ++ u32_be rate ++ cipherBytes) (28 + c)
            = get (u32_be len) c).
  { intros c Hc. rewrite (app_assoc salt).
    replace 28 with (length (salt ++ iv)) by (rewrite length_app, Hs, Hi; done).
    rewrite get_app_r. by apply get_app_l. }
  assert (H32 : forall c, c < 4 ->
            get (salt ++ iv ++ u32_be len ++ u32_be rate ++ cipherBytes) (32 + c)
            = get (u32_be rate) c).
  { intros c Hc. rewrite (app_assoc iv), (app_assoc salt).
    replace 32 with (length (salt ++ iv ++ u32_be len))
      by (rewrite !length_app, length_u32_be, Hs, Hi; done).
    rewrite get_app_r. by apply get_app_l. }
  assert (Hdl : declared_length (salt ++ iv ++ u32_be len ++ u32_be rate ++ cipherBytes)
                = len).
  { unfold declared_length.
    rewrite (H28 0 ltac:(lia) : get _ 28 = _), (H28 1 ltac:(lia) : get _ 29 = _),
      (H28 2 ltac:(lia) : get _ 30 = _), (H28 3 ltac:(lia) : get _ 31 = _).
    exact (u32_be_decode len Hlen). }
  assert (Hdr : declared_rate (salt ++ iv ++ u32_be len ++ u32_be rate ++ cipherBytes)
                = rate).
  { unfold declared_rate.
    rewrite (H32 0 ltac:(lia) : get _ 32 = _), (H32 1 ltac:(lia) : get _ 33 = _),
      (H32 2 ltac:(lia) : get _ 34 = _), (H32 3 ltac:(lia) : get _ 35 = _).
    exact (u32_be_decode rate Hrate). }
  split; [by rewrite take_app_length'|].
  split; [rewrite drop_app_length' by done; by rewrite take_app_length'|].
  split.
  { rewrite (app_assoc salt), drop_app_length' by (rewrite length_app, Hs, Hi; done).
    by rewrite take_app_length'. }
  split; [exact Hdl|].
  split; [intros Hsmall; rewrite Hdl; unfold len; apply Z.mod_small; lia|].
  split.
  { rewrite (app_assoc iv), (app_assoc salt), drop_app_length'
      by (rewrite !length_app, length_u32_be, Hs, Hi; done).
    by rewrite take_app_length'. }
  split; [exact Hdr|].
  split; [intros Hsmall; rewrite Hdr; unfold rate; by apply Z.mod_small|].
  split.
  { rewrite (app_assoc (u32_be len)), (app_assoc iv), (app_assoc salt).
    by rewrite drop_app_length' by (rewrite !length_app, !length_u32_be, Hs, Hi; done). }
  rewrite !length_app, !length_u32_be, Hs, Hi. done.
Qed.

Lemma assemble_layout_witness :
  exists payload,
    assemble (replicate 16 x01) (replicate 12 x02) [x0a; x0b; x0c] 44100 = Ok payload /\
    take 16 payload = replicate 16 x01 /\
    take 12 (drop 16 payload) = replicate 12 x02 /\
    take 4 (drop 28 payload) = [x00; x00; x00; x03] /\
    declared_length payload = 3%Z /\
    take 4 (drop 32 payload) = [x00; x00; xac; x44] /\
    declared_rate payload = 44100%Z /\
    drop 36 payload = [x0a; x0b; x0c] /\
    length payload = 39.
Proof.
  destruct (assemble_layout (replicate 16 x01) (replicate 12 x02) [x0a; x0b; x0c] 44100)
    as (payload & H0 & H1 & H2 & H3 & _ & H4 & H5 & _ & H6 & H7 & H8).
  - reflexivity.
  - reflexivity.
  - exists payload.
    exact (conj H0 (conj H1 (conj H2 (conj H3 (conj (H4 ltac:(simpl; lia))
             (conj H5 (conj (H6 ltac:(lia)) (conj H7 H8)))))))).
Defined.

(** ** C4: truncated payloads *)

(** C4.  [parse] fails with the header-truncated FormatError on every
    buffer shorter than 36 bytes, and with the ciphertext-truncated
    FormatError on every buffer of at least 36 bytes whose declared
    ciphertext length plus 36 exceeds the buffer's length; the decrypt
    pipeline fails with the error of [parse]. *)
Theorem parse_rejects_truncation (payload : list byte) :
  (length payload < 36 ->
   parse payload = Err HeaderTooShort /\ kind_of HeaderTooShort = FormatError) /\
  (36 <= length payload ->
   (Z.of_nat (length payload) < 36 + declared_length payload)%Z ->
   parse payload = Err CiphertextLengthExceeds /\
   kind_of CiphertextLengthExceeds = FormatError) /\
  (forall (P : Platform) (canvas : Canvas) (pass : jsstring) (e : error),
     falsy pass = false -> unpack (data canvas) = Ok payload ->
     parse payload = Err e -> decryptImageToAudio canvas pass = Err e).
Proof.
  change HEADER_LENGTH with 36.
  split; [|split].
  - intros Hlen. split; [|done]. unfold parse. change HEADER_LENGTH with 36.
    by destruct (Nat.ltb_spec (length payload) 36); [|lia].
  - intros Hlen Hdecl. split; [|done]. unfold parse.
    rewrite getUint32_declared_length, getUint32_declared_rate by lia.
    change HEADER_LENGTH with 36.
    destruct (Nat.ltb_spec (length payload) 36) as [Hlt|_]; [lia|].
    rewrite !bind_Ok.
    by destruct (Z.ltb_spec (Z.of_nat (length payload))
                   (Z.of_nat 36 + declared_length payload)); [|lia].
  - intros P canvas pass e Hpass Hunpack Hparse.
    unfold decryptImageToAudio. by rewrite Hpass, Hunpack, bind_Ok, Hparse.
Qed.

Lemma parse_rejects_truncation_witness :
  parse (replicate 35 x00) = Err HeaderTooShort /\
  parse (replicate 31 x00 ++ [x01] ++ replicate 4 x00) = Err CiphertextLengthExceeds /\
  decryptImageToAudio (P := Small.platform)
    (mkCanvas 4 3 (<[41 := x01]> (replicate 48 x00))) (js "Tr0ub4dor&3"%string)
  = Err CiphertextLengthExceeds.
Proof.
  split; [|split].
  - apply (proj1 (parse_rejects_truncation (replicate 35 x00))). simpl. lia.
  - apply (proj1 (proj2 (parse_rejects_truncation
                           (replicate 31 x00 ++ [x01] ++ replicate 4 x00)))).
    + simpl. lia.
    + vm_compute. reflexivity.
  - apply (proj2 (proj2 (parse_rejects_truncation
                           (replicate 31 x00 ++ [x01] ++ replicate 4 x00)))).
    + reflexivity.
    + vm_compute. reflexivity.
    + vm_compute. reflexivity.
Defined.

(** ** C6: the capacity of the grid and the way back *)

(** C6.  For a payload of [N] bytes (at least one), [pack] returns a grid
    of width [ceil(sqrt(ceil(N/3)))] and height [ceil(ceil(N/3)/width)]
    with [width * height * 3 >= N], and [unpack] on that grid yields
    [width * height * 3] bytes whose first [N] are the payload. *)
Theorem pack_unpack_capacity (payload : list byte) :
  0 < length payload ->
  exists canvas extracted,
    pack payload = Ok canvas /\
    let N := length payload in
    let numPixelsRequired := ceil_div N 3 in
    3 * (numPixelsRequired - 1) < N <= 3 * numPixelsRequired /\
    width canvas = ceil_sqrt numPixelsRequired /\
    (width canvas - 1) * (width canvas - 1) < numPixelsRequired
      <= width canvas * width canvas /\
    height canvas = ceil_div numPixelsRequired (width canvas) /\
    width canvas * (height canvas - 1) < numPixelsRequired
      <= width canvas * height canvas /\
    N <= width canvas * height canvas * 3 /\
    unpack (data canvas) = Ok extracted /\
    length extracted = width canvas * height canvas * 3 /\
    take N extracted = payload.
Proof.
  intros HN.
  destruct (pack payload) as [canvas|e] eqn:Hpack;
    [|by rewrite pack_eq in Hpack].
  destruct (pack_dimensions payload canvas HN Hpack) as (Hw & Hh & Hd & HP & HW & Hl).
  exists canvas, (payload ++ replicate (width canvas * height canvas * 3 - length payload) x00).
  split; [done|]. cbv zeta.
  set (P := ceil_div (length payload) 3) in *.
  destruct (ceil_div_spec (length payload) 3 ltac:(lia)) as [HP1 HP2]. fold P in HP1, HP2.
  destruct (ceil_sqrt_spec P) as [Hs1 Hs2]. rewrite <- Hw in Hs1, Hs2.
  assert (Hwpos : 0 < width canvas) by (rewrite Hw; apply ceil_sqrt_pos; lia).
  destruct (ceil_div_spec P (width canvas) Hwpos) as [Hh1 Hh2]. rewrite <- Hh in Hh1, Hh2.
  specialize (Hs2 ltac:(lia)).
  repeat split;
    first [ done | lia | nia | by apply unpack_pack
          | by rewrite take_app_length
          | rewrite length_app, length_replicate; lia ].
Qed.

Lemma pack_unpack_capacity_witness :
  exists canvas extracted,
    pack [x01; x02; x03; x04; x05; x06; x07] = Ok canvas /\
    3 * (3 - 1) < 7 <= 3 * 3 /\
    width canvas = 2 /\
    (width canvas - 1) * (width canvas - 1) < 3 <= width canvas * width canvas /\
    height canvas = 2 /\
    width canvas * (height canvas - 1) < 3 <= width canvas * height canvas /\
    7 <= width canvas * height canvas * 3 /\
    unpack (data canvas) = Ok extracted /\
    length extracted = width canvas * height canvas * 3 /\
    take 7 extracted = [x01; x02; x03; x04; x05; x06; x07].
Proof.
  destruct (pack_unpack_capacity [x01; x02; x03; x04; x05; x06; x07])
    as (canvas & extracted & Hpack & H).
  - simpl. lia.
  - exists canvas, extracted. split; [exact Hpack|].
    cbv zeta in H. destruct H as (H1 & H2 & H3 & H4 & H5 & H6 & H7 & H8 & H9).
    change (ceil_div (length [x01; x02; x03; x04; x05; x06; x07]) 3) with 3 in *.
    change (length [x01; x02; x03; x04; x05; x06; x07]) with 7 in *.
    change (ceil_sqrt 3) with 2 in H2.
    rewrite H2 in H4. change (ceil_div 3 2) with 2 in H4.
    repeat split; first [done | lia | apply H1 | apply H3 | apply H5].
Defined.

(** ** C7: what the packing loop writes *)

(** C7, at a failing input.  The image of one encrypted sample: a 56-byte
    payload needs 19 pixels and gets a 5 x 4 grid; the loop leaves by its
    [break] after pixel 18, so pixel 19, a padding pixel, keeps the alpha 0
    of the freshly created image data, where the documentation of the
    repository has every alpha at 255. *)
Lemma padding_pixel_alpha_zero :
  ('(fullPayload, _) ← encryptPayload (P := Small.platform)
                          (mkAudioBuffer 44100 [f32_zero]) (js "Tr0ub4dor&3"%string)
                          (Small.counter 0);
   canvas ← pack fullPayload;
   Ok (length fullPayload, width canvas, height canvas,
       data canvas !! (4 * 18 + 3), data canvas !! (4 * 19 + 3)))
  = Ok (56, 5, 4, Some xff, Some x00).
Proof. vm_compute. reflexivity. Qed.

(** What the loop writes, for every payload.  For a payload of [N] bytes
    (at least one) the grid [pack] returns holds payload byte [m] in colour
    slot [m mod 3] of pixel [m / 3], zero in every colour slot past the
    payload's end, alpha 255 in each of the [ceil(N/3)] pixels that carry
    payload, and alpha 0 in the padding pixels after them: the early exit
    of line 116 keeps the loop from reaching them. *)
Theorem pack_written_pixels (payload : list byte) :
  0 < length payload ->
  exists canvas,
    pack payload = Ok canvas /\
    let N := length payload in
    let numPixelsRequired := ceil_div N 3 in
    length (data canvas) = width canvas * height canvas * 4 /\
    (forall m, m < N -> data canvas !! (4 * (m / 3) + m mod 3) = payload !! m) /\
    (forall j c, j < width canvas * height canvas -> c < 3 -> N <= 3 * j + c ->
       data canvas !! (4 * j + c) = Some x00) /\
    (forall j, j < numPixelsRequired -> data canvas !! (4 * j + 3) = Some xff) /\
    (forall j, numPixelsRequired <= j < width canvas * height canvas ->
       data canvas !! (4 * j + 3) = Some x00).
Proof.
  intros HN.
  destruct (pack payload) as [canvas|e] eqn:Hpack; [|by rewrite pack_eq in Hpack].
  destruct (pack_dimensions payload canvas HN Hpack) as (_ & _ & Hd & HP & HW & Hl).
  exists canvas. split; [done|]. cbv zeta.
  set (P := ceil_div (length payload) 3) in *.
  split; [done|]. split; [|split; [|split]].
  - intros m Hm.
    pose proof (Nat.div_mod_eq m 3) as Hdm.
    pose proof (Nat.mod_upper_bound m 3 ltac:(lia)) as Hmod.
    rewrite lookup_get by lia. rewrite (lookup_get payload) by done.
    rewrite Hd, get_packed_rgb by done. do 2 f_equal. lia.
  - intros j c Hj Hc Hge.
    rewrite lookup_get by lia.
    by rewrite Hd, get_packed_rgb, get_ge by done.
  - intros j Hj. rewrite lookup_get by lia.
    rewrite Hd, get_packed_alpha. by destruct (Nat.ltb_spec j P); [|lia].
  - intros j Hj. rewrite lookup_get by lia.
    rewrite Hd, get_packed_alpha. by destruct (Nat.ltb_spec j P); [lia|].
Qed.

Lemma pack_written_pixels_witness :
  exists canvas,
    pack [x01; x02; x03; x04; x05; x06; x07] = Ok canvas /\
    length (data canvas) = width canvas * height canvas * 4 /\
    (forall m, m < 7 ->
       data canvas !! (4 * (m / 3) + m mod 3) = [x01; x02; x03; x04; x05; x06; x07] !! m) /\
    (forall j c, j < width canvas * height canvas -> c < 3 -> 7 <= 3 * j + c ->
       data canvas !! (4 * j + c) = Some x00) /\
    (forall j, j < 3 -> data canvas !! (4 * j + 3) = Some xff) /\
    (forall j, 3 <= j < width canvas * height canvas ->
       data canvas !! (4 * j + 3) = Some x00).
Proof.
  apply (pack_written_pixels [x01; x02; x03; x04; x05; x06; x07]).
  simpl. lia.
Defined.

Section PlatformClaims.
Context {P : Platform}.

(** ** C8: the strength rules and the gate *)

(** C8.  A passphrase shorter than 6 characters scores 0 (TooShort);
    any other scores 1 plus one point each for length at least 12, a
    lowercase letter, an uppercase letter, a digit and a non-alphanumeric
    character, and its level is Weak below 2, Medium below 5 and Strong
    otherwise; encryption refuses to proceed exactly when the score is
    below 2. *)
Theorem strength_rules (password : jsstring) :
  (length password < 6 ->
   checkPasswordStrength password = mkStrength 0 TooShort weak) /\
  (6 <= length password ->
   score (checkPasswordStrength password)
   = (1 + point (12 <= length password)%nat
        + point (Exists lowercase password)
        + point (Exists uppercase password)
        + point (Exists digit password)
        + point (Exists non_alphanumeric password))%Z /\
   text (checkPasswordStrength password)
   = (if (score (checkPasswordStrength password) <? 2)%Z then Weak
      else if (score (checkPasswordStrength password) <? 5)%Z then Medium
      else Strong)) /\
  (forall audioBuffer rs,
     (exists e, encryptAudioToImage audioBuffer password rs = Err e)
     <-> (score (checkPasswordStrength password) < 2)%Z).
Proof.
  split; [|split].
  - apply checkPasswordStrength_short.
  - intros Hlen.
    destruct (checkPasswordStrength_score password Hlen) as [Hs Ht].
    split; [exact Hs|]. rewrite Ht, Hs. reflexivity.
  - intros audioBuffer rs.
    pose proof (encryptAudioToImage_gate audioBuffer password rs) as Hg.
    destruct (Z.ltb_spec (score (checkPasswordStrength password)) 2) as [Hlt|Hge];
      destruct (encryptAudioToImage audioBuffer password rs) as [c|e]; try done.
    + split; [done|]. intros _. by exists e.
    + split; [|lia]. by intros [e He].
Qed.

(** ** C10: the score is never 1 *)

(** C10.  The score is never 1: it is 0 for a passphrase shorter than 6
    characters and at least 2 otherwise, since a character is a lowercase
    letter, an uppercase letter, a digit or a non-alphanumeric character;
    so the level Weak is never returned and the gate of encryption
    rejects exactly the passphrases shorter than 6 characters. *)
Theorem score_never_one (password : jsstring) :
  score (checkPasswordStrength password) <> 1%Z /\
  (length password < 6 -> score (checkPasswordStrength password) = 0%Z) /\
  (6 <= length password -> (2 <= score (checkPasswordStrength password))%Z) /\
  (forall c : N, lowercase c \/ uppercase c \/ digit c \/ non_alphanumeric c) /\
  text (checkPasswordStrength password) <> Weak /\
  (forall audioBuffer rs,
     (exists e, encryptAudioToImage audioBuffer password rs = Err e)
     <-> length password < 6).
Proof.
  assert (Hshort : length password < 6 -> score (checkPasswordStrength password) = 0%Z).
  { intros Hlen. by rewrite checkPasswordStrength_short. }
  pose proof (checkPasswordStrength_ge_2 password) as Hlong.
  split; [|split; [done|split; [done|split; [|split]]]].
  - destruct (decide (length password < 6)) as [Hlen|Hlen].
    + rewrite Hshort; done.
    + specialize (Hlong ltac:(lia)). lia.
  - intros c. destruct (decide (lowercase c)); [by left|].
    destruct (decide (uppercase c)); [by right; left|].
    destruct (decide (digit c)); [by right; right; left|].
    right; right; right. unfold non_alphanumeric. tauto.
  - destruct (decide (length password < 6)) as [Hlen|Hlen].
    + by rewrite checkPasswordStrength_short.
    + destruct (checkPasswordStrength_score password ltac:(lia)) as [Hs ->].
      rewrite <- Hs. specialize (Hlong ltac:(lia)). unfold spec_level.
      destruct (Z.ltb_spec (score (checkPasswordStrength password)) 2); [lia|].
      by destruct (score (checkPasswordStrength password) <? 5)%Z.
  - intros audioBuffer rs.
    pose proof (encryptAudioToImage_gate audioBuffer password rs) as Hg.
    destruct (encryptAudioToImage audioBuffer password rs) as [c|e];
      simpl in Hg; symmetry in Hg.
    + apply Z.ltb_ge in Hg. split; [by intros [e He]|].
      intros Hlen. rewrite Hshort in Hg; [lia|done].
    + apply Z.ltb_lt in Hg. split; [|by exists e].
      intros _. destruct (decide (length password < 6)); [done|].
      specialize (Hlong ltac:(lia)). lia.
Qed.
End PlatformClaims.

Lemma strength_rules_witness :
  checkPasswordStrength (js "wrong"%string) = mkStrength 0 TooShort weak /\
  score (checkPasswordStrength (js "Tr0ub4dor&3"%string)) = 5%Z /\
  text (checkPasswordStrength (js "Tr0ub4dor&3"%string)) = Strong.
Proof.
  split.
  - apply (proj1 (strength_rules (P := Small.platform) (js "wrong"%string))).
    simpl. lia.
  - destruct (proj1 (proj2 (strength_rules (P := Small.platform)
                              (js "Tr0ub4dor&3"%string)))) as [Hs Ht].
    + simpl. lia.
    + split.
      * rewrite Hs. reflexivity.
      * rewrite Ht, Hs. reflexivity.
Defined.

Lemma score_never_one_witness :
  score (checkPasswordStrength (js "wrong"%string)) = 0%Z /\
  (2 <= score (checkPasswordStrength (js "aaaaaa"%string)))%Z.
Proof.
  split.
  - apply (proj1 (proj2 (score_never_one (P := Small.platform) (js "wrong"%string)))).
    simpl. lia.
  - apply (proj1 (proj2 (proj2 (score_never_one (P := Small.platform)
                                  (js "aaaaaa"%string))))).
    simpl. lia.
Defined.

Section PipelineClaims.
Context {P : Platform}.

(** ** C1: the round trip *)

(** C1.  For every audio buffer of the platform
    with a sample rate in (0, 192000] and every passphrase of score at
    least 2, [encryptAudioToImage] returns a canvas on which
    [decryptImageToAudio] with the same passphrase returns the original
    samples, byte for byte, at the original sample rate. *)
Theorem roundtrip_samples_and_rate (audioBuffer : AudioBuffer) (pass : jsstring)
    (rs : RandomSource) :
  AudioBuffer_valid audioBuffer -> fits_length_field audioBuffer ->
  (0 < sampleRate audioBuffer <= 192000)%Z ->
  (2 <= score (checkPasswordStrength pass))%Z ->
  exists canvas rs',
    encryptAudioToImage audioBuffer pass rs = Ok (canvas, rs') /\
    decryptImageToAudio canvas pass = Ok audioBuffer.
Proof.
  intros Hvalid Hfit Hrate Hscore.
  assert (Hpass : falsy pass = false).
  { destruct pass; [|done]. simpl in Hscore. lia. }
  destruct (encryptAudioToImage_total audioBuffer pass rs Hpass Hscore)
    as (fullPayload & canvas & rs' & Henc & Hpack & Himg).
  exists canvas, rs'. split; [done|].
  by apply (decrypt_encrypted audioBuffer pass rs fullPayload canvas rs').
Qed.

(** ** C9: the length of the ciphertext and of the payload *)

(** C9, as the code has it.  The AES-GCM ciphertext
    of [L] bytes has [L + 16] bytes, so the payload built from [n]
    samples has [36 + 4 n + 16] bytes; for 44100 samples that is 176452
    bytes, which need [ceil(176452 / 3) = 58818] pixels, and the grid has
    at least as many. *)
Theorem payload_length_with_tag (audioBuffer : AudioBuffer) (pass : jsstring)
    (rs : RandomSource) :
  (forall key iv data, length (AES_GCM_encrypt key iv data) = length data + 16) /\
  exists fullPayload rs',
    encryptPayload audioBuffer pass rs = Ok (fullPayload, rs') /\
    length fullPayload = 36 + 4 * length (channelData audioBuffer) + 16 /\
    (Z.of_nat (length (channelData audioBuffer)) = 44100%Z ->
     Z.of_nat (length fullPayload) = 176452%Z /\
     Z.of_nat (ceil_div (length fullPayload) BYTES_PER_PIXEL) = 58818%Z /\
     exists canvas,
       pack fullPayload = Ok canvas /\
       (58818 <= Z.of_nat (width canvas * height canvas))%Z).
Proof.
  split; [apply AES_GCM_encrypt_length|].
  destruct (encryptPayload audioBuffer pass rs) as [[fullPayload rs']|e] eqn:Henc;
    [|by rewrite encryptPayload_eq in Henc].
  exists fullPayload, rs'. split; [done|].
  pose proof (length_payload _ _ _ _ _ Henc) as Hlen.
  rewrite length_cipher_of in Hlen.
  split; [lia|]. intros Hn.
  destruct (ceil_div_spec (length fullPayload) 3 ltac:(lia)) as [HP1 HP2].
  change BYTES_PER_PIXEL with 3.
  split; [lia|]. split; [lia|].
  destruct (pack fullPayload) as [canvas|e] eqn:Hpack;
    [|by rewrite pack_eq in Hpack by lia].
  exists canvas. split; [done|].
  destruct (pack_dimensions fullPayload canvas ltac:(lia) Hpack)
    as (_ & _ & _ & _ & HW & _).
  lia.
Qed.

(** ** C5: the sample rate check *)

(** The two length checks are all that [parse] tests: a payload that
    passes them is parsed, whatever its sample rate field holds. *)
Lemma parse_of_length_checks (payload : list byte) :
  36 <= length payload ->
  (36 + declared_length payload <= Z.of_nat (length payload))%Z ->
  exists parsed,
    parse payload = Ok parsed /\
    parsed_ciphertextLength parsed = declared_length payload /\
    parsed_sampleRate parsed = declared_rate payload.
Proof.
  intros Hlen Hend. unfold parse.
  destruct (Nat.ltb_spec (length payload) HEADER_LENGTH) as [Hlt|_].
  { change HEADER_LENGTH with 36 in Hlt. lia. }
  rewrite getUint32_declared_length, getUint32_declared_rate, !bind_Ok by lia.
  change HEADER_LENGTH with 36.
  destruct (Z.ltb_spec (Z.of_nat (length payload)) (Z.of_nat 36 + declared_length payload))
    as [Hlt|_]; [lia|].
  eexists. split; [reflexivity|]. split; reflexivity.
Qed.

(** C5, as the code has it.  A payload that passes the two length checks
    of [parse] and whose sample rate field is 0 or above 192000 is parsed:
    [parse] does not reject the sample rate.  The decrypt pipeline then
    derives the key and decrypts first: it fails with
    AuthenticationFailure when decryption rejects, and with the
    invalid-sample-rate FormatError when decryption returns a whole
    number of 4-byte samples. *)
Theorem sample_rate_checked_after_decryption (canvas : Canvas) (pass : jsstring)
    (payload : list byte) :
  falsy pass = false ->
  unpack (data canvas) = Ok payload ->
  36 <= length payload ->
  (36 + declared_length payload <= Z.of_nat (length payload))%Z ->
  (declared_rate payload = 0 \/ 192000 < declared_rate payload)%Z ->
  exists parsed,
    parse payload = Ok parsed /\
    parsed_sampleRate parsed = declared_rate payload /\
    match AES_GCM_decrypt (deriveKey pass (parsed_salt parsed)) (parsed_iv parsed)
            (parsed_cipher parsed) with
    | None =>
        decryptImageToAudio canvas pass = Err DecryptionFailed /\
        kind_of DecryptionFailed = AuthenticationFailure
    | Some rawDecryptedAudioData =>
        length rawDecryptedAudioData mod 4 = 0 ->
        decryptImageToAudio canvas pass
        = Err (InvalidSampleRate (declared_rate payload)) /\
        kind_of (InvalidSampleRate (declared_rate payload)) = FormatError
    end.
Proof.
  intros Hpass Hunpack Hlen Hend Hrate.
  destruct (parse_of_length_checks payload Hlen Hend) as (parsed & Hparse & _ & Hsr).
  exists parsed. split; [done|]. split; [done|].
  unfold decryptImageToAudio. rewrite Hpass, Hunpack, bind_Ok, Hparse, bind_Ok.
  destruct (AES_GCM_decrypt _ _ _) as [raw|]; [|done].
  intros Hmod. split; [|done].
  pose proof (Float32Array_new_length raw) as Hnew.
  destruct (Float32Array_new raw) as [floats|e]; [|by destruct Hnew].
  rewrite bind_Ok, Hsr.
  destruct Hrate as [Hlo|Hhi].
  - by destruct (Z.leb_spec (declared_rate payload) 0); [|lia].
  - destruct (Z.ltb_spec 192000 (declared_rate payload)); [|lia].
    by rewrite orb_true_r.
Qed.
End PipelineClaims.

Lemma roundtrip_samples_and_rate_witness :
  exists canvas rs',
    encryptAudioToImage (P := Small.platform) two_samples scenario_passphrase
      (Small.counter 0) = Ok (canvas, rs') /\
    decryptImageToAudio (P := Small.platform) canvas scenario_passphrase
    = Ok two_samples.
Proof.
  apply (roundtrip_samples_and_rate (P := Small.platform)).
  - split; [discriminate|reflexivity].
  - unfold fits_length_field. vm_compute. reflexivity.
  - simpl. lia.
  - vm_compute. discriminate.
Defined.

(** The scenario of the specification: one second of silence gives a
    payload of 176452 bytes, not 176532, and needs 58818 pixels. *)
Lemma silence_payload_length :
  exists fullPayload rs',
    encryptPayload (P := Small.platform) one_second_of_silence scenario_passphrase
      (Small.counter 0) = Ok (fullPayload, rs') /\
    Z.of_nat (length fullPayload) = 176452%Z /\
    Z.of_nat (length fullPayload) <> 176532%Z /\
    Z.of_nat (ceil_div (length fullPayload) BYTES_PER_PIXEL) = 58818%Z.
Proof.
  destruct (encryptPayload (P := Small.platform) one_second_of_silence
              scenario_passphrase (Small.counter 0))
    as [[fullPayload rs']|e] eqn:Henc; [|by rewrite encryptPayload_eq in Henc].
  exists fullPayload, rs'. split; [done|].
  pose proof (length_payload _ _ _ _ _ Henc) as Hlen.
  rewrite length_cipher_of in Hlen.
  unfold one_second_of_silence in Hlen. cbn [channelData] in Hlen.
  rewrite length_replicate in Hlen.
  destruct (ceil_div_spec (length fullPayload) 3 ltac:(lia)) as [HP1 HP2].
  change BYTES_PER_PIXEL with 3. lia.
Qed.

Lemma payload_length_with_tag_witness :
  exists fullPayload rs' canvas,
    encryptPayload (P := Small.platform) one_second_of_silence scenario_passphrase
      (Small.counter 0) = Ok (fullPayload, rs') /\
    Z.of_nat (length fullPayload) = 176452%Z /\
    Z.of_nat (ceil_div (length fullPayload) BYTES_PER_PIXEL) = 58818%Z /\
    pack fullPayload = Ok canvas /\
    (58818 <= Z.of_nat (width canvas * height canvas))%Z.
Proof.
  destruct (payload_length_with_tag (P := Small.platform) one_second_of_silence
              scenario_passphrase (Small.counter 0))
    as (_ & fullPayload & rs' & Henc & _ & Hscenario).
  destruct Hscenario as (Hlen & Hpixels & canvas & Hpack & Hgrid).
  - unfold one_second_of_silence. cbn [channelData]. rewrite length_replicate. lia.
  - exists fullPayload, rs', canvas.
    exact (conj Henc (conj Hlen (conj Hpixels (conj Hpack Hgrid)))).
Defined.

(** An image whose sample rate field is 0 is not rejected by [parse], and
    the pipeline fails only when decryption rejects the ciphertext. *)
Lemma sample_rate_zero_reaches_decryption :
  unpack (data blank_canvas) = Ok (replicate 36 x00) /\
  declared_rate (replicate 36 x00) = 0%Z /\
  parse (replicate 36 x00)
  = Ok (mkParsed (replicate 16 x00) (replicate 12 x00) 0 0 []) /\
  decryptImageToAudio (P := Small.platform) blank_canvas scenario_passphrase
  = Err DecryptionFailed /\
  kind_of DecryptionFailed <> FormatError.
Proof. repeat split; try (vm_compute; reflexivity). discriminate. Qed.

Lemma sample_rate_checked_after_decryption_witness :
  decryptImageToAudio (P := Small.platform) blank_canvas scenario_passphrase
  = Err DecryptionFailed /\
  decryptImageToAudio (P := Small.platform) zero_rate_canvas scenario_passphrase
  = Err (InvalidSampleRate 0).
Proof.
  split.
  - destruct (sample_rate_checked_after_decryption (P := Small.platform)
                blank_canvas scenario_passphrase (replicate 36 x00))
      as (parsed & Hparse & _ & H).
    + reflexivity.
    + vm_compute. reflexivity.
    + simpl. lia.
    + vm_compute. discriminate.
    + left. reflexivity.
    + vm_compute in Hparse. injection Hparse as <-.
      set (d := AES_GCM_decrypt _ _ _) in H. vm_compute in d. subst d.
      exact (proj1 H).
  - pose (payload := match unpack (data zero_rate_canvas) with
                     | Ok b => b | Err _ => [] end).
    destruct (sample_rate_checked_after_decryption (P := Small.platform)
                zero_rate_canvas scenario_passphrase payload)
      as (parsed & Hparse & _ & H).
    + reflexivity.
    + vm_compute. reflexivity.
    + vm_compute. lia.
    + vm_compute. discriminate.
    + left. reflexivity.
    + vm_compute in Hparse. injection Hparse as <-.
      set (d := AES_GCM_decrypt _ _ _) in H. vm_compute in d. subst d.
      cbv beta iota in H.
      replace (declared_rate payload) with 0%Z in H by reflexivity.
      apply H. reflexivity.
Defined.

(** * Further properties of the script *)

(** ** Trimming the key field *)

Lemma drop_while_split (f : N -> bool) (s : jsstring) :
  exists a, s = a ++ drop_while f s /\ forallb f a = true.
Proof.
  induction s as [|c s IH]; simpl.
  - by exists [].
  - destruct (f c) eqn:Hc.
    + destruct IH as (a & Hs & Ha). exists (c :: a). simpl.
      rewrite Hc, Ha. split; [by f_equal|done].
    + by exists [].
Qed.

Lemma drop_while_head (f : N -> bool) (s : jsstring) (c : N) (rest : jsstring) :
  drop_while f s = c :: rest -> f c = false.
Proof.
  induction s as [|d s IH]; simpl; [done|].
  destruct (f d) eqn:Hd; [done|]. by intros [= <- _].
Qed.

Lemma drop_while_nil (f : N -> bool) (s : jsstring) :
  drop_while f s = [] <-> forallb f s = true.
Proof.
  induction s as [|c s IH]; simpl; [done|].
  destruct (f c); simpl; [done|]. split; discriminate.
Qed.

Lemma drop_while_app_all (f : N -> bool) (a s : jsstring) :
  forallb f a = true -> drop_while f (a ++ s) = drop_while f s.
Proof.
  induction a as [|c a IH]; simpl; [done|].
  destruct (f c); simpl; [done|discriminate].
Qed.

Lemma drop_while_app_keep (f : N -> bool) (s b : jsstring) :
  drop_while f s <> [] -> drop_while f (s ++ b) = drop_while f s ++ b.
Proof.
  induction s as [|c s IH]; simpl; [done|].
  destruct (f c); [done|]. by intros _.
Qed.

Lemma forallb_rev (f : N -> bool) (s : jsstring) : forallb f (rev s) = forallb f s.
Proof.
  induction s as [|c s IH]; simpl; [done|].
  rewrite forallb_app, IH. simpl. rewrite andb_true_r. apply andb_comm.
Qed.

(** The trimmed value is empty exactly when the field holds white space
    only. *)
Lemma trim_nil (s : jsstring) : trim s = [] <-> forallb is_space s = true.
Proof.
  unfold trim. rewrite <- drop_while_nil.
  destruct (drop_while is_space s) as [|c rest] eqn:E; [done|].
  split; [|done]. intros Hrev. exfalso.
  apply (f_equal (@rev N)) in Hrev. rewrite rev_involutive in Hrev.
  change (rev []) with (@nil N) in Hrev.
  apply drop_while_nil in Hrev. rewrite forallb_rev in Hrev. simpl in Hrev.
  by rewrite (drop_while_head _ _ _ _ E) in Hrev.
Qed.

(** The field is its trimmed value between two stretches of white space. *)
Lemma trim_split (s : jsstring) :
  exists a b, s = a ++ trim s ++ b /\
              forallb is_space a = true /\ forallb is_space b = true.
Proof.
  destruct (drop_while_split is_space s) as (a & Hs & Ha).
  destruct (drop_while_split is_space (rev (drop_while is_space s))) as (b & Hr & Hb).
  exists a, (rev b). split; [|split; [done|by rewrite forallb_rev]].
  unfold trim. rewrite Hs at 1. f_equal.
  rewrite <- (rev_involutive (drop_while is_space s)) at 1.
  rewrite Hr at 1. by rewrite rev_app_distr.
Qed.

(** White space around the field's value does not change the key. *)
Lemma trim_surround (a s b : jsstring) :
  forallb is_space a = true -> forallb is_space b = true ->
  trim (a ++ s ++ b) = trim s.
Proof.
  intros Ha Hb. unfold trim. rewrite drop_while_app_all by done.
  destruct (drop_while is_space s) as [|c rest] eqn:E.
  - apply drop_while_nil in E.
    assert (Hsb : drop_while is_space (s ++ b) = []).
    { apply drop_while_nil. by rewrite forallb_app, E, Hb. }
    by rewrite Hsb.
  - rewrite drop_while_app_keep by (by rewrite E).
    rewrite E, rev_app_distr.
    by rewrite drop_while_app_all by (by rewrite forallb_rev).
Qed.

(** ** The strength of a longer passphrase *)

Lemma point_mono (A B : Prop) `{Decision A} `{Decision B} :
  (A -> B) -> (point A <= point B)%Z.
Proof.
  intros HAB. unfold point. destruct (decide A), (decide B); try lia. tauto.
Qed.

Lemma score_nonneg (password : jsstring) :
  (0 <= score (checkPasswordStrength password))%Z.
Proof.
  destruct (decide (length password < 6)) as [Hlen|Hlen].
  - by rewrite checkPasswordStrength_short.
  - pose proof (checkPasswordStrength_ge_2 password ltac:(lia)). lia.
Qed.

(** X1.  Characters added before or after a passphrase never lower its
    score; so the score of the trimmed key, which the gates test, is at
    most the score of the raw field, which the strength indicator shows. *)
Theorem score_monotone (a p b : jsstring) :
  (score (checkPasswordStrength p) <= score (checkPasswordStrength (a ++ p ++ b)))%Z /\
  (forall keyInputValue : jsstring,
     (score (checkPasswordStrength (getUserSecretKey keyInputValue))
      <= score (checkPasswordStrength keyInputValue))%Z).
Proof.
  assert (Hmono : forall a p b : jsstring,
            (score (checkPasswordStrength p)
             <= score (checkPasswordStrength (a ++ p ++ b)))%Z).
  { clear. intros a p b.
    destruct (decide (length p < 6)) as [Hlen|Hlen].
    { rewrite (checkPasswordStrength_short p Hlen). apply score_nonneg. }
    assert (Hlen' : 6 <= length (a ++ p ++ b)) by (rewrite !length_app; lia).
    destruct (checkPasswordStrength_score p ltac:(lia)) as [-> _].
    destruct (checkPasswordStrength_score (a ++ p ++ b) Hlen') as [-> _].
    unfold spec_score.
    assert (Hex : forall C : N -> Prop, Exists C p -> Exists C (a ++ p ++ b)).
    { intros C HC. rewrite !Exists_app. tauto. }
    pose proof (point_mono (12 <= length p) (12 <= length (a ++ p ++ b))
                  ltac:(rewrite !length_app; lia)).
    pose proof (point_mono _ _ (Hex lowercase)).
    pose proof (point_mono _ _ (Hex uppercase)).
    pose proof (point_mono _ _ (Hex digit)).
    pose proof (point_mono _ _ (Hex non_alphanumeric)).
    lia. }
  split; [apply Hmono|].
  intros v. unfold getUserSecretKey.
  destruct (trim_split v) as (a' & b' & Hv & _ & _).
  rewrite Hv at 2. apply Hmono.
Qed.

(** ** The key field and the pipelines *)

Lemma parse_errors (payload : list byte) (e : error) :
  parse payload = Err e -> e = HeaderTooShort \/ e = CiphertextLengthExceeds.
Proof.
  unfold parse. change HEADER_LENGTH with 36.
  destruct (Nat.ltb_spec (length payload) 36) as [|Hlen]; [intros [= <-]; by left|].
  rewrite getUint32_declared_length, getUint32_declared_rate, !bind_Ok by lia.
  destruct (_ <? _)%Z; [intros [= <-]; by right|done].
Qed.

Section KeyField.
Context {P : Platform}.

Lemma encrypt_SecretKeyRequired (audioBuffer : AudioBuffer) (pass : jsstring)
    (rs : RandomSource) :
  encryptAudioToImage audioBuffer pass rs = Err SecretKeyRequired <-> falsy pass = true.
Proof.
  split.
  - intros Henc. destruct (falsy pass) eqn:Hpass; [done|].
    destruct (Z_lt_ge_dec (score (checkPasswordStrength pass)) 2) as [Hlt|Hge].
    + unfold encryptAudioToImage in Henc. rewrite Hpass in Henc.
      by destruct (Z.ltb_spec (score (checkPasswordStrength pass)) 2); [|lia].
    + destruct (encryptAudioToImage_total audioBuffer pass rs Hpass ltac:(lia))
        as (? & ? & ? & _ & _ & Hok). by rewrite Hok in Henc.
  - intros Hpass. unfold encryptAudioToImage. by rewrite Hpass.
Qed.

Lemma decrypt_SecretKeyRequired (canvas : Canvas) (pass : jsstring) :
  decryptImageToAudio canvas pass = Err SecretKeyRequired <-> falsy pass = true.
Proof.
  split; [|intros Hpass; unfold decryptImageToAudio; by rewrite Hpass].
  unfold decryptImageToAudio. destruct (falsy pass); [done|].
  rewrite unpack_eq, bind_Ok.
  destruct (parse _) as [parsed|e] eqn:Hparse.
  2:{ rewrite bind_Err. intros [= ->]. by destruct (parse_errors _ _ Hparse). }
  rewrite bind_Ok. destruct (AES_GCM_decrypt _ _ _) as [raw|]; [|done].
  pose proof (Float32Array_new_length raw) as Hnew.
  destruct (Float32Array_new raw) as [floats|e].
  2:{ rewrite bind_Err. intros [= ->]. by destruct Hnew. }
  rewrite bind_Ok. destruct (_ || _); [done|].
  unfold createBuffer. by destruct (_ || _).
Qed.

(** X2.  Both pipelines answer 'Secret key is required' exactly when the
    key field holds nothing but white space (the empty field included),
    whatever the audio, the image and the random source. *)
Theorem blank_key_field (keyInputValue : jsstring) :
  (forall audioBuffer rs,
     encryptAudioToImage audioBuffer (getUserSecretKey keyInputValue) rs
     = Err SecretKeyRequired
     <-> forallb is_space keyInputValue = true) /\
  (forall canvas,
     decryptImageToAudio canvas (getUserSecretKey keyInputValue)
     = Err SecretKeyRequired
     <-> forallb is_space keyInputValue = true).
Proof.
  assert (Hfalsy : falsy (getUserSecretKey keyInputValue) = true
                   <-> forallb is_space keyInputValue = true).
  { unfold getUserSecretKey. rewrite <- trim_nil.
    destruct (trim keyInputValue); simpl; split; done. }
  split.
  - intros audioBuffer rs. by rewrite encrypt_SecretKeyRequired.
  - intros canvas. by rewrite decrypt_SecretKeyRequired.
Qed.

(** X3.  White space typed around the key does not matter: an image
    encrypted with the key field holding [v] decrypts to the original
    samples and rate with the field holding [v] between any two stretches
    of white space. *)
Theorem roundtrip_modulo_white_space (audioBuffer : AudioBuffer)
    (v before after : jsstring) (rs : RandomSource) :
  AudioBuffer_valid audioBuffer -> fits_length_field audioBuffer ->
  (0 < sampleRate audioBuffer <= 192000)%Z ->
  (2 <= score (checkPasswordStrength (getUserSecretKey v)))%Z ->
  forallb is_space before = true -> forallb is_space after = true ->
  exists canvas rs',
    encryptAudioToImage audioBuffer (getUserSecretKey v) rs = Ok (canvas, rs') /\
    decryptImageToAudio canvas (getUserSecretKey (before ++ v ++ after))
    = Ok audioBuffer.
Proof.
  intros Hvalid Hfit Hrate Hscore Hb Ha.
  unfold getUserSecretKey in *. rewrite trim_surround by done.
  assert (Hpass : falsy (trim v) = false).
  { destruct (trim v); [|done]. simpl in Hscore. lia. }
  destruct (encryptAudioToImage_total audioBuffer (trim v) rs Hpass Hscore)
    as (fullPayload & canvas & rs' & Henc & Hpack & Himg).
  exists canvas, rs'. split; [done|].
  by apply (decrypt_encrypted audioBuffer (trim v) rs fullPayload canvas rs').
Qed.
End KeyField.

Lemma roundtrip_modulo_white_space_witness :
  exists canvas rs',
    encryptAudioToImage (P := Small.platform) two_samples
      (getUserSecretKey scenario_passphrase) (Small.counter 0) = Ok (canvas, rs') /\
    decryptImageToAudio (P := Small.platform) canvas
      (getUserSecretKey ([32; 9] ++ scenario_passphrase ++ [10; 32; 32])%N)
    = Ok two_samples.
Proof.
  apply (roundtrip_modulo_white_space (P := Small.platform)).
  - split; [discriminate|reflexivity].
  - unfold fits_length_field. vm_compute. reflexivity.
  - simpl. lia.
  - vm_compute. discriminate.
  - reflexivity.
  - reflexivity.
Defined.

(** ** The play button *)

(** X4.  While audio is playing [updatePlayButtonState] changes nothing;
    otherwise it enables the play button exactly when an image is
    displayed and the trimmed key has at least 6 characters, and touches
    nothing else. *)
Theorem play_button_enabled (page : Page) :
  (isPlaying page = true -> updatePlayButtonState page = page) /\
  (isPlaying page = false ->
   (playBtn_disabled (updatePlayButtonState page) = false
    <-> (exists canvas, display_canvas page = Some canvas) /\
        6 <= length (getUserSecretKey (keyInput_value page))) /\
   keyInput_value (updatePlayButtonState page) = keyInput_value page /\
   display_canvas (updatePlayButtonState page) = display_canvas page /\
   isPlaying (updatePlayButtonState page) = false).
Proof.
  unfold updatePlayButtonState. split; intros Hplay; rewrite Hplay; [done|].
  cbn [negb playBtn_disabled keyInput_value display_canvas isPlaying].
  split; [|done].
  set (pass := getUserSecretKey (keyInput_value page)).
  rewrite negb_false_iff, !andb_true_iff, negb_true_iff, Z.leb_le.
  split.
  - intros [[Hc Hpass] Hscore]. split.
    + destruct (display_canvas page) as [canvas|]; [by exists canvas|done].
    + destruct (decide (length pass < 6)) as [Hlen|Hlen]; [|lia].
      rewrite (checkPasswordStrength_short pass Hlen) in Hscore. simpl in Hscore. lia.
  - intros [[canvas Hc] Hlen]. rewrite Hc. repeat split.
    + destruct pass; simpl in *; [lia|done].
    + by apply checkPasswordStrength_ge_2.
Qed.

Lemma play_button_enabled_witness :
  updatePlayButtonState (mkPage scenario_passphrase (Some blank_canvas) true true)
  = mkPage scenario_passphrase (Some blank_canvas) true true /\
  playBtn_disabled
    (updatePlayButtonState (mkPage scenario_passphrase (Some blank_canvas) false true))
  = false.
Proof.
  split.
  - apply (proj1 (play_button_enabled
                    (mkPage scenario_passphrase (Some blank_canvas) true true))).
    reflexivity.
  - apply (proj1 (proj2 (play_button_enabled
                           (mkPage scenario_passphrase (Some blank_canvas) false true))
                    eq_refl)).
    split; [by exists blank_canvas|]. vm_compute. lia.
Defined.

(** ** The error banner *)

Lemma banner_inv_cleared (b : Banner) (id : positive) :
  banner_inv b -> errorTimeout b = Some id ->
  pendingTimers (clearTimeout id b) = [].
Proof.
  intros [Hnil|(id' & Hp & Ht)] Hid; unfold clearTimeout; cbn [pendingTimers].
  - by rewrite Hnil.
  - rewrite Hp. assert (id' = id) by congruence. subst id'.
    cbn. by destruct (decide (id <> id)).
Qed.

Lemma banner_inv_no_handle (b : Banner) :
  banner_inv b -> errorTimeout b = None -> pendingTimers b = [].
Proof. intros [Hnil|(id & _ & Ht)] Hnone; [done|congruence]. Qed.

(** After [showError] the only pending timer is the one it set. *)
Lemma showError_timers (message : jsstring) (duration : Z) (b : Banner) :
  banner_inv b -> errorDisplay b <> None ->
  errorDisplay (showError message duration b) = Some (mkErrorArea message true) /\
  pendingTimers (showError message duration b)
  = (if (0 <? duration)%Z then [nextTimer b] else []) /\
  ((0 < duration)%Z -> errorTimeout (showError message duration b) = Some (nextTimer b)).
Proof.
  intros Hinv Hd. unfold showError.
  destruct (errorDisplay b) as [area|] eqn:Harea; [|done].
  cbn [errorTimeout].
  set (b1 := mkBanner (Some (mkErrorArea message true)) (errorTimeout b)
               (pendingTimers b) (nextTimer b)).
  assert (Hinv1 : banner_inv b1) by exact Hinv.
  set (b2 := match errorTimeout b with Some id => clearTimeout id b1 | None => b1 end).
  assert (H2 : pendingTimers b2 = [] /\ nextTimer b2 = nextTimer b /\
               errorDisplay b2 = Some (mkErrorArea message true)).
  { unfold b2. destruct (errorTimeout b) as [id|] eqn:Ht.
    - split; [by apply banner_inv_cleared|done].
    - split; [by apply banner_inv_no_handle|done]. }
  destruct H2 as (Hp2 & Hn2 & Hd2).
  destruct (Z.ltb_spec 0 duration) as [Hpos|Hneg].
  - unfold setTimeout. cbn [errorDisplay pendingTimers errorTimeout].
    rewrite Hp2, Hn2, Hd2. done.
  - rewrite Hp2, Hd2. split; [done|]. split; [done|lia].
Qed.

Lemma banner_inv_step (b : Banner) (e : banner_event) :
  banner_inv b -> banner_inv (banner_step b e).
Proof.
  intros Hinv. destruct e as [area|message duration| |id]; cbn [banner_step].
  - exact Hinv.
  - destruct (errorDisplay b) as [area|] eqn:Harea.
    + destruct (showError_timers message duration b Hinv ltac:(by rewrite Harea))
        as (_ & Hp & Ht).
      destruct (Z.ltb_spec 0 duration) as [Hpos|Hneg].
      * right. exists (nextTimer b). split; [done|by apply Ht].
      * by left.
    + unfold showError. by rewrite Harea.
  - unfold clearError. destruct (errorDisplay b) as [area|]; [|done].
    cbn [errorTimeout]. destruct (errorTimeout b) as [id|] eqn:Ht.
    + left. cbn [pendingTimers].
      apply (banner_inv_cleared
               (mkBanner (Some hidden) (errorTimeout b) (pendingTimers b) (nextTimer b)) id);
        [exact Hinv|done].
    + left. cbn [pendingTimers]. exact (banner_inv_no_handle b Hinv Ht).
  - unfold timerFires. destruct (bool_decide_reflect (id ∈ pendingTimers b)) as [Hin|]; [|done].
    left. cbn [pendingTimers]. destruct Hinv as [Hnil|(id' & Hp & _)].
    + by rewrite Hnil.
    + rewrite Hp in Hin |- *. apply list_elem_of_singleton in Hin. subst id'.
      cbn. by destruct (decide (id <> id)).
Qed.

Lemma banner_inv_run (events : list banner_event) : banner_inv (banner_run events).
Proof.
  unfold banner_run. induction events as [|e events IH] using rev_ind.
  - by left.
  - rewrite foldl_app. by apply banner_inv_step.
Qed.

(** X5.  Whatever was shown, cleared or timed out before, once the banner
    element exists [showError] displays its message with exactly one timer
    pending, the one it set itself (none for a duration of 0 or less): a
    timer left from an earlier message never hides a later one.  And
    [clearError] hides the banner with no timer pending. *)
Theorem banner_single_timer (events : list banner_event) (message : jsstring)
    (duration : Z) :
  errorDisplay (banner_run events) <> None ->
  let shown := banner_run (events ++ [ShowError message duration]) in
  let cleared := banner_run (events ++ [ClearError]) in
  errorDisplay shown = Some (mkErrorArea message true) /\
  pendingTimers shown
  = (if (0 <? duration)%Z then [nextTimer (banner_run events)] else []) /\
  (forall id, id ∈ pendingTimers shown ->
     errorTimeout shown = Some id /\
     errorDisplay (timerFires id shown) = Some hidden /\
     pendingTimers (timerFires id shown) = []) /\
  errorDisplay cleared = Some hidden /\
  pendingTimers cleared = [] /\ errorTimeout cleared = None.
Proof.
  intros Hd shown cleared. unfold shown, cleared, banner_run.
  rewrite !foldl_app. cbn [foldl banner_step]. fold (banner_run events).
  pose proof (banner_inv_run events) as Hinv.
  destruct (showError_timers message duration _ Hinv Hd) as (Hs1 & Hs2 & Hs3).
  split; [done|]. split; [done|]. split.
  - intros id Hin. rewrite Hs2 in Hin.
    destruct (Z.ltb_spec 0 duration) as [Hpos|Hneg]; [|by apply not_elem_of_nil in Hin].
    apply list_elem_of_singleton in Hin. subst id.
    split; [by apply Hs3|]. unfold timerFires. rewrite Hs2.
    rewrite bool_decide_eq_true_2 by apply list_elem_of_singleton, eq_refl.
    cbn. by destruct (decide (nextTimer (banner_run events) <> nextTimer (banner_run events))).
  - unfold clearError.
    destruct (errorDisplay (banner_run events)) as [area|]; [|done].
    cbn [errorTimeout]. destruct (errorTimeout (banner_run events)) as [id|] eqn:Ht.
    + cbn [errorDisplay pendingTimers errorTimeout clearTimeout].
      split; [done|]. split; [|done].
      apply (banner_inv_cleared
               (mkBanner (Some hidden) (errorTimeout (banner_run events))
                  (pendingTimers (banner_run events)) (nextTimer (banner_run events))) id);
        [exact Hinv|done].
    + split; [done|]. split; [|done]. cbn [pendingTimers].
      exact (banner_inv_no_handle _ Hinv Ht).
Qed.

Lemma banner_single_timer_witness :
  let events := [DOMContentLoaded (Some hidden); ShowError (js "first"%string) 7000] in
  let shown := banner_run (events ++ [ShowError (js "second"%string) 7000]) in
  errorDisplay shown = Some (mkErrorArea (js "second"%string) true) /\
  pendingTimers shown = [2%positive].
Proof.
  destruct (banner_single_timer
              [DOMContentLoaded (Some hidden); ShowError (js "first"%string) 7000]
              (js "second"%string) 7000)
    as (H1 & H2 & _).
  - discriminate.
  - split; [exact H1|exact H2].
Defined.

(** ** The shape of the grid *)

(** X6.  The grid [pack] makes is square or one row short of square, and
    its padding is less than one row of pixels. *)
Theorem grid_nearly_square (payload : list byte) :
  0 < length payload ->
  exists canvas,
    pack payload = Ok canvas /\
    height canvas <= width canvas <= height canvas + 1 /\
    ceil_div (length payload) 3 <= width canvas * height canvas
      < ceil_div (length payload) 3 + width canvas.
Proof.
  intros HN.
  destruct (pack payload) as [canvas|e] eqn:Hpack; [|by rewrite pack_eq in Hpack].
  destruct (pack_dimensions payload canvas HN Hpack) as (Hw & Hh & _ & HP & HW & _).
  exists canvas. split; [done|].
  set (P := ceil_div (length payload) 3) in *.
  destruct (ceil_div_spec (length payload) 3 ltac:(lia)) as [HP1 HP2]. fold P in HP1, HP2.
  destruct (ceil_sqrt_spec P) as [Hs1 Hs2]. rewrite <- Hw in Hs1, Hs2.
  specialize (Hs2 ltac:(lia)).
  assert (Hwpos : 0 < width canvas) by (rewrite Hw; apply ceil_sqrt_pos; lia).
  destruct (ceil_div_spec P (width canvas) Hwpos) as [Hh1 Hh2]. rewrite <- Hh in Hh1, Hh2.
  split; [|lia]. split; nia.
Qed.

Lemma grid_nearly_square_witness :
  exists canvas,
    pack (replicate 56 x01) = Ok canvas /\
    height canvas <= width canvas <= height canvas + 1 /\
    ceil_div (length (replicate 56 x01)) 3 <= width canvas * height canvas
      < ceil_div (length (replicate 56 x01)) 3 + width canvas.
Proof.
  apply (grid_nearly_square (replicate 56 x01)). simpl. lia.
Defined.

(** ** What decryption reads of an image *)

Lemma unpacked_bytes_ext (pixelData pixelData' : list byte) (k : nat) :
  (forall j c, c < 3 -> get pixelData (4 * j + c) = get pixelData' (4 * j + c)) ->
  unpacked_bytes pixelData k = unpacked_bytes pixelData' k.
Proof.
  intros Hrgb. unfold unpacked_bytes. f_equal. apply map_ext. intros j.
  unfold rgb_of.
  pose proof (Hrgb j 0 ltac:(lia)) as H0. rewrite Nat.add_0_r in H0.
  by rewrite H0, (Hrgb j 1), (Hrgb j 2) by lia.
Qed.

Lemma get_opaque (canvas : Canvas) (j c : nat) :
  c < 3 -> get (data (opaque canvas)) (4 * j + c) = get (data canvas) (4 * j + c).
Proof.
  intros Hc.
  assert (Hmod : ((4 * j + c) mod 4 =? 3) = false).
  { rewrite Nat.add_comm, Nat.mul_comm, Nat.Div0.mod_add, Nat.mod_small by lia.
    apply Nat.eqb_neq. lia. }
  unfold get, opaque. cbn [data]. rewrite list_lookup_imap.
  destruct (data canvas !! (4 * j + c)) as [b|]; [|done].
  cbn [fmap option_fmap option_map default]. by rewrite Hmod.
Qed.

Lemma unpacked_bytes_app (pixelData extra : list byte) (W k : nat) :
  length pixelData = 4 * W ->
  unpacked_bytes (pixelData ++ extra) (W + k)
  = unpacked_bytes pixelData W
    ++ concat (map (rgb_of (pixelData ++ extra)) (seq W k)).
Proof.
  intros Hlen. unfold unpacked_bytes.
  rewrite seq_app, map_app, concat_app. f_equal. f_equal.
  apply map_ext_in. intros j Hj%in_seq.
  unfold rgb_of. by rewrite !get_app_l by lia.
Qed.

Lemma declared_length_range (payload : list byte) :
  (0 <= declared_length payload < 2 ^ 32)%Z.
Proof.
  unfold declared_length.
  pose proof (Z_of_byte_range (get payload 28)).
  pose proof (Z_of_byte_range (get payload 29)).
  pose proof (Z_of_byte_range (get payload 30)).
  pose proof (Z_of_byte_range (get payload 31)).
  change (2 ^ 24)%Z with 16777216%Z. change (2 ^ 16)%Z with 65536%Z.
  change (2 ^ 8)%Z with 256%Z. change (2 ^ 32)%Z with 4294967296%Z. lia.
Qed.

(** What [parse] returns when it returns. *)
Lemma parse_Ok_inv (payload : list byte) (parsed : Parsed) :
  parse payload = Ok parsed ->
  36 <= length payload /\
  (36 + declared_length payload <= Z.of_nat (length payload))%Z /\
  parsed = mkParsed (take 16 payload) (take 12 (drop 16 payload))
             (declared_length payload) (declared_rate payload)
             (take (Z.to_nat (declared_length payload)) (drop 36 payload)).
Proof.
  unfold parse. change HEADER_LENGTH with 36.
  destruct (Nat.ltb_spec (length payload) 36) as [|Hlen]; [done|].
  rewrite getUint32_declared_length, getUint32_declared_rate, !bind_Ok by lia.
  destruct (Z.ltb_spec (Z.of_nat (length payload)) (Z.of_nat 36 + declared_length payload))
    as [|Hend]; [done|].
  intros [= <-]. split; [done|]. split; [lia|].
  pose proof (declared_length_range payload).
  unfold slice. rewrite drop_0. do 2 f_equal. lia.
Qed.

Lemma get_take (l : list byte) (n i : nat) : i < n -> get (take n l) i = get l i.
Proof. intros Hi. unfold get. by rewrite lookup_take_lt. Qed.

(** [parse] looks at the header and the declared ciphertext only. *)
Lemma parse_app (payload extra : list byte) (parsed : Parsed) :
  parse payload = Ok parsed -> parse (payload ++ extra) = Ok parsed.
Proof.
  intros Hparse. destruct (parse_Ok_inv payload parsed Hparse) as (Hlen & Hend & ->).
  pose proof (declared_length_range payload) as Hrange.
  assert (Hdl : declared_length (payload ++ extra) = declared_length payload).
  { unfold declared_length. by rewrite !get_app_l by lia. }
  assert (Hdr : declared_rate (payload ++ extra) = declared_rate payload).
  { unfold declared_rate. by rewrite !get_app_l by lia. }
  unfold parse. change HEADER_LENGTH with 36.
  destruct (Nat.ltb_spec (length (payload ++ extra)) 36) as [Hlt|_].
  { rewrite length_app in Hlt. lia. }
  rewrite getUint32_declared_length, getUint32_declared_rate, !bind_Ok
    by (rewrite length_app; lia).
  rewrite Hdl, Hdr.
  destruct (Z.ltb_spec (Z.of_nat (length (payload ++ extra)))
              (Z.of_nat 36 + declared_length payload)) as [Hlt|_].
  { rewrite length_app in Hlt. lia. }
  unfold slice. rewrite drop_0.
  change SALT_LENGTH with 16. change IV_LENGTH with 12.
  change (16 - 0) with 16. change (16 + 12 - 16) with 12.
  f_equal. f_equal.
  - by rewrite take_app_le by lia.
  - rewrite drop_app_le by lia. by rewrite take_app_le by (rewrite length_drop; lia).
  - rewrite drop_app_le by lia.
    rewrite take_app_le by (rewrite length_drop; lia). f_equal. lia.
Qed.

Section Reading.
Context {P : Platform}.

(** The stages a successful decryption went through. *)
Lemma decrypt_Ok_inv (canvas : Canvas) (pass : jsstring) (buf : AudioBuffer) :
  decryptImageToAudio canvas pass = Ok buf ->
  exists payload parsed rawDecryptedAudioData,
    falsy pass = false /\
    unpack (data canvas) = Ok payload /\ parse payload = Ok parsed /\
    AES_GCM_decrypt (deriveKey pass (parsed_salt parsed)) (parsed_iv parsed)
      (parsed_cipher parsed) = Some rawDecryptedAudioData /\
    Float32Array_new rawDecryptedAudioData = Ok (channelData buf) /\
    sampleRate buf = parsed_sampleRate parsed /\
    (0 < sampleRate buf <= 192000)%Z /\
    channelData buf <> [] /\ supportsSampleRate (sampleRate buf) = true.
Proof.
  unfold decryptImageToAudio. destruct (falsy pass); [done|].
  destruct (unpack (data canvas)) as [payload|e] eqn:Hunpack; [|done]. rewrite bind_Ok.
  destruct (parse payload) as [parsed|e] eqn:Hparse; [|done]. rewrite bind_Ok.
  destruct (AES_GCM_decrypt _ _ _) as [raw|] eqn:Hdec; [|done].
  destruct (Float32Array_new raw) as [floats|e] eqn:Hnew; [|done]. rewrite bind_Ok.
  destruct (Z.leb_spec (parsed_sampleRate parsed) 0) as [|Hlo]; [done|].
  destruct (Z.ltb_spec 192000 (parsed_sampleRate parsed)) as [|Hhi]; [done|].
  cbn [orb]. unfold createBuffer.
  destruct (Nat.eqb_spec (length floats) 0) as [|Hne]; [done|].
  destruct (supportsSampleRate (parsed_sampleRate parsed)) eqn:Hsup; [|done].
  cbn [orb negb]. rewrite bind_Ok. intros [= <-].
  exists payload, parsed, raw. unfold copyToChannel. cbn [channelData sampleRate].
  rewrite length_replicate, firstn_all, drop_ge by (rewrite length_replicate; lia).
  rewrite app_nil_r. repeat split; try done; try lia.
  by destruct floats.
Qed.

(** X7.  Of the pixel data [getImageData] returns, decryption reads the
    red, green and blue bytes only: two images whose pixel data have the
    same length and the same colour bytes give the same outcome, result
    or error, whatever their alpha bytes.  So the image the packing loop
    makes, with its padding at alpha 0, decrypts as the image with every
    alpha at 255 does. *)
Theorem decryption_reads_rgb_only (canvas canvas' : Canvas) (pass : jsstring) :
  length (data canvas) = length (data canvas') ->
  (forall j c, c < 3 ->
     get (data canvas) (4 * j + c) = get (data canvas') (4 * j + c)) ->
  decryptImageToAudio canvas pass = decryptImageToAudio canvas' pass.
Proof.
  intros Hlen Hrgb. unfold decryptImageToAudio.
  by rewrite !unpack_eq, Hlen, (unpacked_bytes_ext _ _ _ Hrgb).
Qed.

(** X8.  Decryption stops reading at the end of the declared ciphertext:
    an image that decrypts still decrypts, to the same audio, after any
    bytes are appended to its pixel data. *)
Theorem appended_pixels_ignored (canvas : Canvas) (pass : jsstring)
    (buf : AudioBuffer) (extra : list byte) (w h : nat) :
  length (data canvas) mod 4 = 0 ->
  decryptImageToAudio canvas pass = Ok buf ->
  decryptImageToAudio (mkCanvas w h (data canvas ++ extra)) pass = Ok buf.
Proof.
  intros Hmod Hdec.
  destruct (decrypt_Ok_inv canvas pass buf Hdec)
    as (payload & parsed & raw & Hpass & Hunpack & Hparse & _).
  revert Hdec. unfold decryptImageToAudio. cbn [data]. rewrite Hpass.
  rewrite unpack_eq in Hunpack. rewrite !unpack_eq, !bind_Ok.
  assert (Hp : payload = unpacked_bytes (data canvas) (length (data canvas) / 4))
    by congruence.
  pose proof (Nat.div_mod_eq (length (data canvas)) 4) as Hdm.
  replace (length (data canvas ++ extra) / 4)
    with (length (data canvas) / 4 + length extra / 4).
  2:{ rewrite length_app. rewrite Hdm at 2. rewrite Hmod, Nat.add_0_r.
      by rewrite Nat.mul_comm, Nat.div_add_l by lia. }
  rewrite (unpacked_bytes_app _ _ (length (data canvas) / 4)) by lia.
  rewrite <- Hp. by rewrite Hparse, (parse_app _ _ _ Hparse).
Qed.
End Reading.

Lemma decryption_reads_rgb_only_witness :
  data one_sample_canvas !! (4 * 19 + 3) = Some x00 /\
  data (opaque one_sample_canvas) !! (4 * 19 + 3) = Some xff /\
  decryptImageToAudio (P := Small.platform) (opaque one_sample_canvas) scenario_passphrase
  = decryptImageToAudio (P := Small.platform) one_sample_canvas scenario_passphrase.
Proof.
  split; [reflexivity|]. split; [reflexivity|].
  apply (decryption_reads_rgb_only (P := Small.platform)).
  - reflexivity.
  - intros j c Hc. apply get_opaque, Hc.
Defined.

Lemma appended_pixels_ignored_witness :
  length (data two_samples_canvas) mod 4 = 0 /\
  decryptImageToAudio (P := Small.platform)
    (mkCanvas 5 6 (data two_samples_canvas ++ replicate 20 xff)) scenario_passphrase
  = Ok two_samples.
Proof.
  split; [reflexivity|].
  apply (appended_pixels_ignored (P := Small.platform)); vm_compute; reflexivity.
Defined.

(** ** What the header decides *)

Lemma Float32Array_buffer_new (buffer : list byte) (floats : list float32) :
  Float32Array_new buffer = Ok floats -> Float32Array_buffer floats = buffer.
Proof.
  revert floats. induction buffer as [| | | |a b c d l IH] using list_ind4;
    intros floats; simpl; try done.
  - by intros [= <-].
  - destruct (Float32Array_new l) as [fl|e]; [|done].
    rewrite bind_Ok. intros [= <-]. simpl. by rewrite (IH fl).
Qed.

Section Header.
Context {P : Platform}.

(** An image with this payload decrypts to these samples at this rate. *)
Lemma decrypt_assembled (salt iv : list byte) (floats : list float32) (rate : Z)
    (pass : jsstring) (canvas : Canvas) :
  let cipherBytes := AES_GCM_encrypt (deriveKey pass salt) iv (Float32Array_buffer floats) in
  length salt = 16 -> length iv = 12 ->
  falsy pass = false -> floats <> [] ->
  (Z.of_nat (4 * length floats + 16) < 2 ^ 32)%Z ->
  (0 < rate <= 192000)%Z -> supportsSampleRate rate = true ->
  pack (salt ++ iv ++ u32_be (Z.of_nat (length cipherBytes)) ++ u32_be rate
        ++ cipherBytes) = Ok canvas ->
  decryptImageToAudio canvas pass = Ok (mkAudioBuffer rate floats).
Proof.
  intros cipherBytes Hs Hi Hpass Hne Hfit Hrate Hsup Hpack.
  assert (Hc : length cipherBytes = 4 * length floats + 16).
  { unfold cipherBytes. by rewrite AES_GCM_encrypt_length, length_Float32Array_buffer. }
  unfold decryptImageToAudio. rewrite Hpass.
  pose proof Hpack as Hunpack.
  apply unpack_pack in Hunpack; [|rewrite !length_app, !length_u32_be; lia].
  rewrite Hunpack, bind_Ok.
  rewrite parse_assembled;
    [|done|done|lia|change (2 ^ 32)%Z with 4294967296%Z; lia].
  rewrite bind_Ok. cbn [parsed_salt parsed_iv parsed_cipher parsed_sampleRate].
  unfold cipherBytes at 1. rewrite AES_GCM_decrypt_encrypt.
  rewrite Float32Array_new_buffer, bind_Ok.
  destruct (Z.leb_spec rate 0); [lia|].
  destruct (Z.ltb_spec 192000 rate); [lia|].
  cbn [orb]. by rewrite copyToChannel_createBuffer.
Qed.

(** X9.  The sample-rate field is not covered by the authentication tag:
    overwriting bytes 32..35 of an encrypted payload with another rate
    gives an image that decrypts, with the same passphrase, to the same
    samples at the other rate. *)
Theorem sample_rate_not_authenticated (audioBuffer : AudioBuffer) (pass : jsstring)
    (rs rs' : RandomSource) (fullPayload : list byte) (rate' : Z) :
  falsy pass = false ->
  channelData audioBuffer <> [] -> fits_length_field audioBuffer ->
  (0 < rate' <= 192000)%Z -> supportsSampleRate rate' = true ->
  encryptPayload audioBuffer pass rs = Ok (fullPayload, rs') ->
  exists canvas',
    pack (take 32 fullPayload ++ u32_be rate' ++ drop 36 fullPayload) = Ok canvas' /\
    decryptImageToAudio canvas' pass
    = Ok (mkAudioBuffer rate' (channelData audioBuffer)).
Proof.
  intros Hpass Hne Hfit Hrate Hsup Henc.
  pose proof (length_cipher_of audioBuffer pass rs) as Hc.
  pose proof (length_getRandomValues SALT_LENGTH rs) as Hs.
  pose proof (length_getRandomValues IV_LENGTH (getRandomValues SALT_LENGTH rs).2) as Hi.
  fold (salt_of rs) in Hs. fold (iv_of rs) in Hi.
  change SALT_LENGTH with 16 in Hs. change IV_LENGTH with 12 in Hi.
  rewrite encryptPayload_eq in Henc.
  assert (Hp : fullPayload
               = (salt_of rs ++ iv_of rs
                  ++ u32_be (Z.of_nat (length (cipher_of audioBuffer pass rs)) mod 2 ^ 32))
                 ++ u32_be (sampleRate audioBuffer mod 2 ^ 32)
                 ++ cipher_of audioBuffer pass rs).
  { rewrite <- !app_assoc. congruence. }
  assert (Htamper : take 32 fullPayload ++ u32_be rate' ++ drop 36 fullPayload
                    = salt_of rs ++ iv_of rs
                      ++ u32_be (Z.of_nat (length (cipher_of audioBuffer pass rs)))
                      ++ u32_be rate' ++ cipher_of audioBuffer pass rs).
  { rewrite Hp.
    rewrite take_app_length' by (rewrite !length_app, length_u32_be; lia).
    change 36 with (32 + 4).
    rewrite <- drop_drop.
    rewrite drop_app_length' by (rewrite !length_app, length_u32_be; lia).
    rewrite drop_app_length' by done.
    unfold fits_length_field in Hfit.
    rewrite Z.mod_small by (change (2 ^ 32)%Z with 4294967296%Z in *; lia).
    by rewrite <- !app_assoc. }
  rewrite Htamper.
  destruct (pack (salt_of rs ++ iv_of rs
                  ++ u32_be (Z.of_nat (length (cipher_of audioBuffer pass rs)))
                  ++ u32_be rate' ++ cipher_of audioBuffer pass rs))
    as [canvas'|e] eqn:Hpack.
  2:{ rewrite pack_eq in Hpack; [done|]. rewrite !length_app, !length_u32_be. lia. }
  exists canvas'. split; [done|].
  by apply (decrypt_assembled (salt_of rs) (iv_of rs)).
Qed.

Lemma decrypt_Ok_shape (canvas : Canvas) (pass : jsstring) (buf : AudioBuffer)
    (payload : list byte) :
  decryptImageToAudio canvas pass = Ok buf ->
  unpack (data canvas) = Ok payload ->
  Z.of_nat (4 * length (channelData buf) + 16) = declared_length payload /\
  sampleRate buf = declared_rate payload /\
  (0 < sampleRate buf <= 192000)%Z /\
  AudioBuffer_valid buf /\ fits_length_field buf.
Proof.
  intros Hdec Hunpack.
  destruct (decrypt_Ok_inv canvas pass buf Hdec)
    as (payload' & parsed & raw & Hpass & Hunpack' & Hparse & Haes & Hnew & Hsr
        & Hrate & Hne & Hsup).
  assert (payload' = payload) as -> by congruence.
  destruct (parse_Ok_inv payload parsed Hparse) as (Hlen & Hend & ->).
  cbn [parsed_salt parsed_iv parsed_cipher parsed_sampleRate] in *.
  pose proof (declared_length_range payload) as Hrange.
  apply AES_GCM_decrypt_Some in Haes.
  apply (f_equal length) in Haes.
  rewrite AES_GCM_encrypt_length, length_take, length_drop in Haes.
  pose proof (Float32Array_new_length raw) as Hraw. rewrite Hnew in Hraw.
  assert (Hshape : Z.of_nat (4 * length (channelData buf) + 16) = declared_length payload)
    by lia.
  refine (conj Hshape (conj Hsr (conj Hrate (conj (conj Hne Hsup) _)))).
  unfold fits_length_field. rewrite Hshape. apply Hrange.
Qed.

(** X10.  The number of samples and the rate of a decrypted recording are
    what the header says, which can be read without the key: the samples
    are a quarter of the declared ciphertext length less the 16-byte tag,
    and the rate is the sample-rate field, within the accepted range. *)
Theorem decrypted_audio_shape (canvas : Canvas) (pass : jsstring) (buf : AudioBuffer)
    (payload : list byte) :
  decryptImageToAudio canvas pass = Ok buf ->
  unpack (data canvas) = Ok payload ->
  Z.of_nat (4 * length (channelData buf) + 16) = declared_length payload /\
  sampleRate buf = declared_rate payload /\
  (0 < sampleRate buf <= 192000)%Z /\
  AudioBuffer_valid buf /\ fits_length_field buf.
Proof. exact (decrypt_Ok_shape canvas pass buf payload). Qed.

(** X11.  A decrypted recording can always be encrypted again, and the new
    image decrypts to the same recording. *)
Theorem decrypted_audio_reencrypts (canvas : Canvas) (pass : jsstring)
    (buf : AudioBuffer) (rs : RandomSource) :
  decryptImageToAudio canvas pass = Ok buf ->
  (2 <= score (checkPasswordStrength pass))%Z ->
  exists canvas' rs',
    encryptAudioToImage buf pass rs = Ok (canvas', rs') /\
    decryptImageToAudio canvas' pass = Ok buf.
Proof.
  intros Hdec Hscore.
  destruct (decrypt_Ok_inv canvas pass buf Hdec)
    as (payload & parsed & raw & Hpass & Hunpack & Hparse & Haes & Hnew & Hsr
        & Hrate & Hne & Hsup).
  destruct (parse_Ok_inv payload parsed Hparse) as (Hlen & Hend & ->).
  cbn [parsed_salt parsed_iv parsed_cipher parsed_sampleRate] in *.
  pose proof (declared_length_range payload) as Hrange.
  apply AES_GCM_decrypt_Some in Haes.
  apply (f_equal length) in Haes.
  rewrite AES_GCM_encrypt_length, length_take, length_drop in Haes.
  pose proof (Float32Array_new_length raw) as Hraw. rewrite Hnew in Hraw.
  assert (Hfit : fits_length_field buf) by (unfold fits_length_field; lia).
  destruct (encryptAudioToImage_total buf pass rs Hpass Hscore)
    as (fullPayload & canvas' & rs' & Henc & Hpack & Himg).
  exists canvas', rs'. split; [done|].
  by apply (decrypt_encrypted buf pass rs fullPayload canvas' rs').
Qed.
End Header.

Lemma sample_rate_not_authenticated_witness :
  exists canvas',
    pack (take 32 (salt_of (Small.counter 0) ++ iv_of (Small.counter 0)
                   ++ u32_be 24 ++ u32_be 44100
                   ++ cipher_of (P := Small.platform) two_samples scenario_passphrase
                        (Small.counter 0))
          ++ u32_be 8000
          ++ drop 36 (salt_of (Small.counter 0) ++ iv_of (Small.counter 0)
                      ++ u32_be 24 ++ u32_be 44100
                      ++ cipher_of (P := Small.platform) two_samples scenario_passphrase
                           (Small.counter 0)))
    = Ok canvas' /\
    decryptImageToAudio (P := Small.platform) canvas' scenario_passphrase
    = Ok (mkAudioBuffer 8000 (channelData two_samples)).
Proof.
  apply (sample_rate_not_authenticated (P := Small.platform) two_samples
           scenario_passphrase (Small.counter 0) (Small.counter 28)).
  - reflexivity.
  - discriminate.
  - unfold fits_length_field. vm_compute. reflexivity.
  - lia.
  - reflexivity.
  - vm_compute. reflexivity.
Defined.

Lemma decrypted_audio_shape_witness :
  Z.of_nat (4 * length (channelData two_samples) + 16)
  = declared_length (unpacked_bytes (data two_samples_canvas) 20) /\
  sampleRate two_samples = declared_rate (unpacked_bytes (data two_samples_canvas) 20) /\
  (0 < sampleRate two_samples <= 192000)%Z /\
  AudioBuffer_valid (H := Small.platform) two_samples /\
  fits_length_field two_samples.
Proof.
  apply (decrypted_audio_shape (P := Small.platform) two_samples_canvas
           scenario_passphrase); vm_compute; reflexivity.
Defined.

Lemma decrypted_audio_reencrypts_witness :
  exists canvas' rs',
    encryptAudioToImage (P := Small.platform) two_samples scenario_passphrase
      (Small.counter 100) = Ok (canvas', rs') /\
    decryptImageToAudio (P := Small.platform) canvas' scenario_passphrase
    = Ok two_samples.
Proof.
  apply (decrypted_audio_reencrypts (P := Small.platform) two_samples_canvas).
  - vm_compute. reflexivity.
  - vm_compute. discriminate.
Defined.

(** ** WAV export *)

Lemma DataView_write_at (pre rest bytes : list byte) (offset : nat) :
  length pre = offset -> length bytes <= length rest ->
  DataView_write (pre ++ rest) offset bytes
  = Ok ((pre ++ bytes) ++ drop (length bytes) rest).
Proof.
  intros Hpre Hlen. unfold DataView_write.
  destruct (Nat.ltb_spec (length (pre ++ rest)) (offset + length bytes)) as [Hlt|_].
  { rewrite length_app in Hlt. lia. }
  rewrite take_app_length' by done.
  rewrite <- Hpre, <- drop_drop, drop_app_length. by rewrite <- app_assoc.
Qed.

Lemma write_step {A} (pre rest bytes : list byte) (offset : nat)
    (k : list byte -> result A) :
  length pre = offset -> length bytes <= length rest ->
  (DataView_write (pre ++ rest) offset bytes ≫= k)
  = k ((pre ++ bytes) ++ drop (length bytes) rest).
Proof. intros Hpre Hlen. by rewrite DataView_write_at. Qed.

Lemma writeString_from_spec (str : jsstring) (pre written rest : list byte)
    (offset i : nat) :
  length pre = offset -> length written = i -> length str <= length rest ->
  writeString_from (pre ++ written ++ rest) offset i str
  = Ok (pre ++ (written ++ ascii_bytes str) ++ drop (length str) rest).
Proof.
  revert written rest i.
  induction str as [|c str IH]; intros written rest i Hpre Hw Hlen; simpl.
  { by rewrite drop_0, app_nil_r. }
  simpl in Hlen. unfold DataView_setUint8.
  rewrite (app_assoc pre written rest).
  rewrite write_step by (rewrite ?length_app; simpl; lia).
  rewrite <- !app_assoc.
  rewrite (app_assoc written) .
  rewrite IH; [|done|rewrite length_app; simpl; lia|rewrite length_drop; simpl; lia].
  rewrite drop_drop. simpl. by rewrite <- !app_assoc.
Qed.

Lemma writeString_step {A} (str : jsstring) (pre rest : list byte) (offset : nat)
    (k : list byte -> result A) :
  length pre = offset -> length str <= length rest ->
  (writeString (pre ++ rest) offset str ≫= k)
  = k ((pre ++ ascii_bytes str) ++ drop (length str) rest).
Proof.
  intros Hpre Hlen. unfold writeString.
  pose proof (writeString_from_spec str pre [] rest offset 0 Hpre eq_refl Hlen) as Hw.
  rewrite !app_nil_l in Hw. by rewrite Hw, bind_Ok, app_assoc.
Qed.

Lemma u16_le_decode (v : Z) :
  (0 <= v < 2 ^ 16)%Z -> u16_le_value (u16_le v) = v.
Proof.
  intros Hv.
  change (u16_le_value (u16_le v))
    with (Z_of_byte (byte_of_Z v) + Z_of_byte (byte_of_Z (v / 2 ^ 8)) * 2 ^ 8)%Z.
  rewrite !Z_of_byte_of_Z.
  change (2 ^ 16)%Z with 65536%Z in Hv. change (2 ^ 8)%Z with 256%Z.
  pose proof (Z.div_mod v 256 ltac:(lia)).
  rewrite (Z.mod_small (v / 256) 256)
    by (split; [apply Z.div_pos; lia|apply Z.div_lt_upper_bound; lia]).
  lia.
Qed.

Lemma u32_le_decode (v : Z) :
  (0 <= v < 2 ^ 32)%Z -> u32_le_value (u32_le v) = v.
Proof.
  intros Hv.
  change (u32_le_value (u32_le v))
    with (Z_of_byte (byte_of_Z v) + Z_of_byte (byte_of_Z (v / 2 ^ 8)) * 2 ^ 8
          + Z_of_byte (byte_of_Z (v / 2 ^ 16)) * 2 ^ 16
          + Z_of_byte (byte_of_Z (v / 2 ^ 24)) * 2 ^ 24)%Z.
  rewrite !Z_of_byte_of_Z.
  change (2 ^ 32)%Z with 4294967296%Z in Hv. change (2 ^ 8)%Z with 256%Z.
  change (2 ^ 16)%Z with 65536%Z. change (2 ^ 24)%Z with 16777216%Z.
  pose proof (Z.div_mod v 256 ltac:(lia)).
  pose proof (Z.div_mod (v / 256) 256 ltac:(lia)).
  pose proof (Z.div_mod (v / 65536) 256 ltac:(lia)).
  replace (v / 65536)%Z with (v / 256 / 256)%Z in *
    by (rewrite Z.div_div by lia; reflexivity).
  replace (v / 16777216)%Z with (v / 256 / 256 / 256)%Z
    by (rewrite !Z.div_div by lia; reflexivity).
  rewrite (Z.mod_small (v / 256 / 256 / 256) 256)
    by (split; [repeat apply Z.div_pos; lia
               |repeat apply Z.div_lt_upper_bound; lia]).
  lia.
Qed.

Section Wav.
Variable pcm16 : option float32 -> Z.
Variable buffer : PcmSource.

Lemma length_wav_sample (i c : nat) : length (wav_sample pcm16 buffer i c) = 2.
Proof. reflexivity. Qed.

Lemma length_wav_frame (i : nat) :
  length (wav_frame pcm16 buffer i) = 2 * numberOfChannels buffer.
Proof. unfold wav_frame. apply length_blocks, length_wav_sample. Qed.

Lemma length_wav_header (numChan : nat) (rate : Z) (len : nat) :
  length (wav_header numChan rate len) = 44.
Proof. reflexivity. Qed.

Lemma wav_channels_spec (i : nat) (cs : list nat) (pre rest : list byte) (offset : nat) :
  length pre = offset -> 2 * length cs <= length rest ->
  wav_channels pcm16 buffer (pre ++ rest) i cs offset
  = Ok (pre ++ concat (map (wav_sample pcm16 buffer i) cs) ++ drop (2 * length cs) rest,
        offset + 2 * length cs).
Proof.
  revert pre rest offset.
  induction cs as [|c cs IH]; intros pre rest offset Hpre Hlen; simpl.
  { by rewrite drop_0, Nat.add_0_r. }
  simpl in Hlen. unfold DataView_setInt16_le.
  rewrite write_step by (simpl; lia).
  rewrite IH; [|rewrite length_app; simpl; lia|rewrite length_drop; simpl; lia].
  rewrite drop_drop, <- !app_assoc. simpl.
  replace (S (S (length cs + (length cs + 0))))
    with (S (length cs + S (length cs + 0))) by lia.
  replace (offset + 2 + (length cs + (length cs + 0)))
    with (offset + S (length cs + S (length cs + 0))) by lia.
  done.
Qed.

Lemma wav_frames_spec (frames : list nat) (pre rest : list byte) (offset : nat) :
  length pre = offset ->
  2 * numberOfChannels buffer * length frames <= length rest ->
  wav_frames pcm16 buffer (pre ++ rest) frames offset
  = Ok (pre ++ concat (map (wav_frame pcm16 buffer) frames)
        ++ drop (2 * numberOfChannels buffer * length frames) rest).
Proof.
  revert pre rest offset.
  induction frames as [|i frames IH]; intros pre rest offset Hpre Hlen;
    cbn [wav_frames map concat length] in *.
  { by rewrite Nat.mul_0_r, drop_0. }
  rewrite wav_channels_spec by (rewrite ?length_seq; nia || done).
  rewrite bind_Ok. cbv beta iota. rewrite length_seq.
  fold (wav_frame pcm16 buffer i).
  rewrite (app_assoc pre).
  rewrite IH;
    [|rewrite length_app, length_wav_frame; lia|rewrite length_drop; nia].
  rewrite drop_drop, <- !app_assoc.
  replace (2 * numberOfChannels buffer * S (length frames))
    with (2 * numberOfChannels buffer + 2 * numberOfChannels buffer * length frames)
    by lia.
  done.
Qed.

(** The bytes [bufferToWav] returns, in closed form: no write is out of
    range, and none overwrites another. *)
Lemma bufferToWav_eq : bufferToWav pcm16 buffer = Ok (wav_file pcm16 buffer).
Proof.
  unfold bufferToWav, wav_file. cbv zeta.
  set (numChan := numberOfChannels buffer). set (frames := frameCount buffer).
  set (len := frames * numChan * 2 + 44).
  rewrite <- (app_nil_l (replicate len x00)).
  assert (Hlen : length (replicate len x00) = len) by apply length_replicate.
  unfold DataView_setUint32_le, DataView_setUint16_le.
  rewrite writeString_step by (simpl; lia). cbv beta.
  rewrite write_step by (simpl; rewrite ?length_drop; lia). cbv beta.
  rewrite writeString_step by (simpl; rewrite ?length_drop; lia). cbv beta.
  rewrite writeString_step by (simpl; rewrite ?length_drop; lia). cbv beta.
  rewrite write_step by (simpl; rewrite ?length_drop; lia). cbv beta.
  rewrite write_step by (simpl; rewrite ?length_drop; lia). cbv beta.
  rewrite write_step by (simpl; rewrite ?length_drop; lia). cbv beta.
  rewrite write_step by (simpl; rewrite ?length_drop; lia). cbv beta.
  rewrite write_step by (simpl; rewrite ?length_drop; lia). cbv beta.
  rewrite write_step by (simpl; rewrite ?length_drop; lia). cbv beta.
  rewrite write_step by (simpl; rewrite ?length_drop; lia). cbv beta.
  rewrite writeString_step by (simpl; rewrite ?length_drop; lia). cbv beta.
  rewrite write_step by (simpl; rewrite ?length_drop; lia). cbv beta.
  rewrite wav_frames_spec;
    [|reflexivity|rewrite ?length_drop, length_seq; simpl; lia].
  rewrite (drop_ge _ (2 * numChan * length (seq 0 frames)))
    by (rewrite ?length_drop, length_seq; simpl; lia).
  rewrite app_nil_r. reflexivity.
Qed.

Lemma length_wav_file :
  length (wav_file pcm16 buffer)
  = 44 + 2 * (frameCount buffer * numberOfChannels buffer).
Proof.
  unfold wav_file. rewrite length_app, length_wav_header.
  rewrite (length_blocks _ (2 * numberOfChannels buffer)) by apply length_wav_frame.
  lia.
Qed.

(** X12.  [bufferToWav] always returns a file: 44 bytes of header and two
    bytes for every sample of every channel, with the four tags in place
    and the format fields of 16-bit PCM. *)
Theorem wav_export_total :
  exists wav,
    bufferToWav pcm16 buffer = Ok wav /\
    length wav = 44 + 2 * (frameCount buffer * numberOfChannels buffer) /\
    take 4 wav = ascii_bytes (js "RIFF"%string) /\
    take 8 (drop 8 wav) = ascii_bytes (js "WAVEfmt "%string) /\
    take 4 (drop 36 wav) = ascii_bytes (js "data"%string) /\
    u32_le_at wav 16 = 16%Z /\ u16_le_at wav 20 = 1%Z /\ u16_le_at wav 34 = 16%Z.
Proof.
  exists (wav_file pcm16 buffer). split; [apply bufferToWav_eq|].
  split; [apply length_wav_file|]. repeat split.
Qed.

(** The size, channel and rate fields, as long as none of them wraps. *)
Lemma wav_file_fields :
  let wav := wav_file pcm16 buffer in
  let numChan := Z.of_nat (numberOfChannels buffer) in
  (0 < numChan < 2 ^ 15)%Z ->
  (0 <= pcm_sampleRate buffer)%Z -> (pcm_sampleRate buffer * numChan * 2 < 2 ^ 32)%Z ->
  (Z.of_nat (length wav) < 2 ^ 32)%Z ->
  u32_le_at wav 4 = (Z.of_nat (length wav) - 8)%Z /\
  u16_le_at wav 22 = numChan /\
  u32_le_at wav 24 = pcm_sampleRate buffer /\
  u32_le_at wav 28 = (pcm_sampleRate buffer * numChan * 2)%Z /\
  u16_le_at wav 32 = (numChan * 2)%Z /\
  u32_le_at wav 40 = (Z.of_nat (length wav) - 44)%Z.
Proof.
  intros wav numChan Hchan Hrate0 Hrate Hlen.
  unfold wav in *. rewrite length_wav_file in *.
  set (len := frameCount buffer * numberOfChannels buffer * 2 + 44).
  assert (Hl : (Z.of_nat (44 + 2 * (frameCount buffer * numberOfChannels buffer))
                = Z.of_nat len)%Z) by lia.
  rewrite Hl in *.
  change (2 ^ 15)%Z with 32768%Z in Hchan. change (2 ^ 32)%Z with 4294967296%Z in *.
  assert (Hmul : (0 <= pcm_sampleRate buffer * numChan)%Z) by (unfold numChan; nia).
  repeat split.
  - change (u32_le_at (wav_file pcm16 buffer) 4)
      with (u32_le_value (u32_le ((Z.of_nat len - 8) mod 2 ^ 32))).
    rewrite u32_le_decode by (apply Z.mod_pos_bound; lia).
    apply Z.mod_small. change (2 ^ 32)%Z with 4294967296%Z. unfold len. lia.
  - change (u16_le_at (wav_file pcm16 buffer) 22)
      with (u16_le_value (u16_le (numChan mod 2 ^ 16))).
    rewrite u16_le_decode by (apply Z.mod_pos_bound; lia).
    apply Z.mod_small. change (2 ^ 16)%Z with 65536%Z. unfold numChan in *. lia.
  - change (u32_le_at (wav_file pcm16 buffer) 24)
      with (u32_le_value (u32_le (pcm_sampleRate buffer mod 2 ^ 32))).
    rewrite u32_le_decode by (apply Z.mod_pos_bound; lia).
    apply Z.mod_small. change (2 ^ 32)%Z with 4294967296%Z. unfold numChan in *. nia.
  - change (u32_le_at (wav_file pcm16 buffer) 28)
      with (u32_le_value (u32_le ((pcm_sampleRate buffer * numChan * 2) mod 2 ^ 32))).
    rewrite u32_le_decode by (apply Z.mod_pos_bound; lia).
    apply Z.mod_small. change (2 ^ 32)%Z with 4294967296%Z. lia.
  - change (u16_le_at (wav_file pcm16 buffer) 32)
      with (u16_le_value (u16_le ((numChan * 2) mod 2 ^ 16))).
    rewrite u16_le_decode by (apply Z.mod_pos_bound; lia).
    apply Z.mod_small. change (2 ^ 16)%Z with 65536%Z. unfold numChan in *. lia.
  - change (u32_le_at (wav_file pcm16 buffer) 40)
      with (u32_le_value (u32_le ((Z.of_nat len - 44) mod 2 ^ 32))).
    rewrite u32_le_decode by (apply Z.mod_pos_bound; lia).
    apply Z.mod_small. change (2 ^ 32)%Z with 4294967296%Z. unfold len. lia.
Qed.

(** X13.  The header describes the file: as long as no field wraps (at
    least one and fewer than 2^15 channels, a byte rate and a file size
    under 2^32), the RIFF
    size is the file size less 8, the data size the file size less the 44
    bytes of header, and the channel count, sample rate, byte rate and
    block size are those of the buffer at two bytes a sample. *)
Theorem wav_header_fields (wav : list byte) :
  bufferToWav pcm16 buffer = Ok wav ->
  (0 < Z.of_nat (numberOfChannels buffer) < 2 ^ 15)%Z ->
  (0 <= pcm_sampleRate buffer)%Z ->
  (pcm_sampleRate buffer * Z.of_nat (numberOfChannels buffer) * 2 < 2 ^ 32)%Z ->
  (Z.of_nat (length wav) < 2 ^ 32)%Z ->
  u32_le_at wav 4 = (Z.of_nat (length wav) - 8)%Z /\
  u16_le_at wav 22 = Z.of_nat (numberOfChannels buffer) /\
  u32_le_at wav 24 = pcm_sampleRate buffer /\
  u32_le_at wav 28 = (pcm_sampleRate buffer * Z.of_nat (numberOfChannels buffer) * 2)%Z /\
  u16_le_at wav 32 = (Z.of_nat (numberOfChannels buffer) * 2)%Z /\
  u32_le_at wav 40 = (Z.of_nat (length wav) - 44)%Z.
Proof.
  rewrite bufferToWav_eq. intros [= <-]. apply wav_file_fields.
Qed.

(** X14.  The samples are interleaved: the 16-bit word of channel [c] at
    frame [i] lies at offset 44 + 2 * (i * numChan + c). *)
Theorem wav_samples_interleaved (wav : list byte) (i c : nat) :
  bufferToWav pcm16 buffer = Ok wav ->
  i < frameCount buffer -> c < numberOfChannels buffer ->
  u16_le_at wav (44 + 2 * (i * numberOfChannels buffer + c))
  = (pcm16 (getChannelData buffer c !! i) mod 2 ^ 16)%Z.
Proof.
  rewrite bufferToWav_eq. intros [= <-] Hi Hc.
  assert (Hget : forall k, k < 2 ->
            get (wav_file pcm16 buffer) (44 + 2 * (i * numberOfChannels buffer + c) + k)
            = get (wav_sample pcm16 buffer i c) k).
  { intros k Hk. unfold wav_file.
    rewrite <- (length_wav_header (numberOfChannels buffer) (pcm_sampleRate buffer)
                  (frameCount buffer * numberOfChannels buffer * 2 + 44)) at 2.
    rewrite <- Nat.add_assoc, get_app_r.
    rewrite <- (app_nil_r (concat _)).
    replace (2 * (i * numberOfChannels buffer + c) + k)
      with (2 * numberOfChannels buffer * i + (2 * c + k)) by lia.
    rewrite (get_blocks _ (2 * numberOfChannels buffer))
      by (apply length_wav_frame || lia).
    unfold wav_frame. rewrite <- (app_nil_r (concat _)).
    by rewrite (get_blocks _ 2) by (apply length_wav_sample || lia). }
  unfold u16_le_at.
  rewrite <- (Nat.add_0_r (44 + 2 * (i * numberOfChannels buffer + c))) at 1.
  rewrite !Hget by lia.
  change (Z_of_byte (get (wav_sample pcm16 buffer i c) 0)
          + Z_of_byte (get (wav_sample pcm16 buffer i c) 1) * 2 ^ 8)%Z
    with (u16_le_value (wav_sample pcm16 buffer i c)).
  unfold wav_sample. apply u16_le_decode. apply Z.mod_pos_bound. lia.
Qed.
End Wav.

Lemma wav_header_fields_witness :
  let wav := wav_file high_word (pcm_of two_samples) in
  u32_le_at wav 4 = (Z.of_nat (length wav) - 8)%Z /\
  u16_le_at wav 22 = 1%Z /\
  u32_le_at wav 24 = 44100%Z /\
  u32_le_at wav 28 = (44100 * 1 * 2)%Z /\
  u16_le_at wav 32 = (1 * 2)%Z /\
  u32_le_at wav 40 = (Z.of_nat (length wav) - 44)%Z.
Proof.
  apply (wav_header_fields high_word (pcm_of two_samples)).
  - reflexivity.
  - simpl. lia.
  - simpl. lia.
  - simpl. lia.
  - simpl. lia.
Defined.

Lemma wav_samples_interleaved_witness :
  u16_le_at (wav_file high_word (pcm_of two_samples)) (44 + 2 * (1 * 1 + 0))
  = (high_word (Some (F32 x05 x06 x07 x08)) mod 2 ^ 16)%Z.
Proof.
  apply (wav_samples_interleaved high_word (pcm_of two_samples)).
  - reflexivity.
  - simpl. lia.
  - simpl. lia.
Defined.

(** ** Decryption followed by export *)

Section WavExport.
Context {P : Platform}.
Variable pcm16 : option float32 -> Z.

(** X15.  Every image that decrypts exports to a well-formed WAV file: one
    channel, the sample rate of the image's header, and sizes in which no
    field wraps, the file holding two bytes for every four of audio in the
    image. *)
Theorem decrypted_audio_export (canvas : Canvas) (pass : jsstring) (buf : AudioBuffer)
    (payload : list byte) :
  decryptImageToAudio canvas pass = Ok buf ->
  unpack (data canvas) = Ok payload ->
  exists wav,
    bufferToWav pcm16 (pcm_of buf) = Ok wav /\
    (2 * Z.of_nat (length wav) = declared_length payload + 72)%Z /\
    u32_le_at wav 4 = (Z.of_nat (length wav) - 8)%Z /\
    u16_le_at wav 22 = 1%Z /\
    u32_le_at wav 24 = declared_rate payload /\
    u32_le_at wav 28 = (declared_rate payload * 2)%Z /\
    u16_le_at wav 32 = 2%Z /\
    u32_le_at wav 40 = (Z.of_nat (length wav) - 44)%Z.
Proof.
  intros Hdec Hunpack.
  destruct (decrypt_Ok_shape canvas pass buf payload Hdec Hunpack)
    as (Hshape & Hsr & Hrate & _ & Hfit).
  unfold fits_length_field in Hfit. change (2 ^ 32)%Z with 4294967296%Z in Hfit.
  exists (wav_file pcm16 (pcm_of buf)). split; [apply bufferToWav_eq|].
  pose proof (length_wav_file pcm16 (pcm_of buf)) as Hlen.
  cbn [pcm_of frameCount numberOfChannels] in Hlen.
  destruct (wav_file_fields pcm16 (pcm_of buf)) as (H4 & H22 & H24 & H28 & H32 & H40);
    cbn [pcm_of numberOfChannels pcm_sampleRate];
    try (change (2 ^ 15)%Z with 32768%Z; change (2 ^ 32)%Z with 4294967296%Z; lia).
  cbn [pcm_of numberOfChannels pcm_sampleRate] in H22, H24, H28, H32.
  rewrite <- Hsr.
  refine (conj _ (conj H4 (conj H22 (conj H24 (conj _ (conj H32 H40)))))); [lia|].
  rewrite H28. lia.
Qed.
End WavExport.

Lemma decrypted_audio_export_witness :
  exists wav,
    bufferToWav high_word (pcm_of two_samples) = Ok wav /\
    (2 * Z.of_nat (length wav)
     = declared_length (unpacked_bytes (data two_samples_canvas) 20) + 72)%Z /\
    u32_le_at wav 4 = (Z.of_nat (length wav) - 8)%Z /\
    u16_le_at wav 22 = 1%Z /\
    u32_le_at wav 24 = declared_rate (unpacked_bytes (data two_samples_canvas) 20) /\
    u32_le_at wav 28 = (declared_rate (unpacked_bytes (data two_samples_canvas) 20) * 2)%Z /\
    u16_le_at wav 32 = 2%Z /\
    u32_le_at wav 40 = (Z.of_nat (length wav) - 44)%Z.
Proof.
  apply (decrypted_audio_export (P := Small.platform) high_word two_samples_canvas
           scenario_passphrase two_samples); vm_compute; reflexivity.
Defined.

(** ** Images the script did not make *)

Section Foreign.
Context {P : Platform}.


Lemma decrypt_after_release (canvas : Canvas) (pass : jsstring) (payload : list byte)
    (parsed : Parsed) (rawDecryptedAudioData : list byte) :
  falsy pass = false ->
  unpack (data canvas) = Ok payload -> parse payload = Ok parsed ->
  AES_GCM_decrypt (deriveKey pass (parsed_salt parsed)) (parsed_iv parsed)
    (parsed_cipher parsed) = Some rawDecryptedAudioData ->
  decryptImageToAudio canvas pass
  = (floatArr ← Float32Array_new rawDecryptedAudioData;
     if (parsed_sampleRate parsed <=? 0)%Z || (192000 <? parsed_sampleRate parsed)%Z
     then Err (InvalidSampleRate (parsed_sampleRate parsed))
     else buf ← createBuffer (length floatArr) (parsed_sampleRate parsed);
          Ok (copyToChannel buf floatArr)).
Proof.
  intros Hpass Hunpack Hparse Hdec. unfold decryptImageToAudio.
  by rewrite Hpass, Hunpack, bind_Ok, Hparse, bind_Ok, Hdec.
Qed.

(** X17.  An authentic ciphertext whose plaintext is not a whole number of
    4-byte samples makes [decryptImageToAudio] fail with the [RangeError]
    of the [Float32Array] constructor, whatever the sample-rate field
    holds. *)
Theorem decrypt_ragged_plaintext (canvas : Canvas) (pass : jsstring)
    (payload : list byte) (parsed : Parsed) (rawDecryptedAudioData : list byte) :
  falsy pass = false ->
  unpack (data canvas) = Ok payload -> parse payload = Ok parsed ->
  AES_GCM_decrypt (deriveKey pass (parsed_salt parsed)) (parsed_iv parsed)
    (parsed_cipher parsed) = Some rawDecryptedAudioData ->
  length rawDecryptedAudioData mod 4 <> 0 ->
  decryptImageToAudio canvas pass = Err RangeError.
Proof.
  intros Hpass Hunpack Hparse Hdec Hmod.
  rewrite (decrypt_after_release canvas pass payload parsed _ Hpass Hunpack Hparse Hdec).
  pose proof (Float32Array_new_length rawDecryptedAudioData) as Hnew.
  destruct (Float32Array_new rawDecryptedAudioData) as [floats|e].
  - rewrite Hnew in Hmod. exfalso. apply Hmod.
    by rewrite Nat.mul_comm, Nat.Div0.mod_mul.
  - by destruct Hnew as [-> _].
Qed.

(** X18.  An authentic image of an empty recording with an acceptable
    sample rate fails in [createBuffer], with a [NotSupportedError], none
    of the script's own messages. *)
Theorem decrypt_empty_recording (canvas : Canvas) (pass : jsstring)
    (payload : list byte) (parsed : Parsed) :
  falsy pass = false ->
  unpack (data canvas) = Ok payload -> parse payload = Ok parsed ->
  AES_GCM_decrypt (deriveKey pass (parsed_salt parsed)) (parsed_iv parsed)
    (parsed_cipher parsed) = Some [] ->
  (0 < parsed_sampleRate parsed <= 192000)%Z ->
  decryptImageToAudio canvas pass = Err NotSupportedError.
Proof.
  intros Hpass Hunpack Hparse Hdec Hrate.
  rewrite (decrypt_after_release canvas pass payload parsed _ Hpass Hunpack Hparse Hdec).
  cbn [Float32Array_new]. rewrite bind_Ok.
  destruct (Z.leb_spec (parsed_sampleRate parsed) 0); [lia|].
  destruct (Z.ltb_spec 192000 (parsed_sampleRate parsed)); [lia|].
  reflexivity.
Qed.
End Foreign.


Lemma decrypt_ragged_plaintext_witness :
  decryptImageToAudio (P := Small.platform) three_byte_canvas (js "a"%string)
  = Err RangeError.
Proof.
  apply (decrypt_ragged_plaintext (P := Small.platform) three_byte_canvas (js "a"%string)
           (unpacked_bytes (data three_byte_canvas) 20)
           (mkParsed (replicate 16 x00) (replicate 12 x00) 19 44100
              (AES_GCM_encrypt (H := Small.platform)
                 (deriveKey (js "a"%string) (replicate 16 x00)) (replicate 12 x00)
                 [x01; x02; x03]))
           [x01; x02; x03]).
  - reflexivity.
  - vm_compute. reflexivity.
  - vm_compute. reflexivity.
  - vm_compute. reflexivity.
  - simpl. lia.
Defined.

Lemma decrypt_empty_recording_witness :
  decryptImageToAudio (P := Small.platform) empty_recording_canvas (js "a"%string)
  = Err NotSupportedError.
Proof.
  apply (decrypt_empty_recording (P := Small.platform) empty_recording_canvas
           (js "a"%string)
           (unpacked_bytes (data empty_recording_canvas) 20)
           (mkParsed (replicate 16 x00) (replicate 12 x00) 16 44100
              (AES_GCM_encrypt (H := Small.platform)
                 (deriveKey (js "a"%string) (replicate 16 x00)) (replicate 12 x00) []))).
  - reflexivity.
  - vm_compute. reflexivity.
  - vm_compute. reflexivity.
  - vm_compute. reflexivity.
  - simpl. lia.
Defined.

(** ** The strength shown while typing *)

Section Typing.
Context {P : Platform}.

(** X19.  The strength indicator rates the key as typed, the pipelines use
    it trimmed: while no audio is playing, for a value of six or more
    characters of which fewer than six remain after trimming, the
    indicator shows a passing rating while the play button stays disabled
    and encryption is refused. *)
Theorem strength_shown_for_untrimmed_key (page : Page) (audioBuffer : AudioBuffer)
    (rs : RandomSource) :
  isPlaying page = false ->
  6 <= length (keyInput_value page) ->
  length (getUserSecretKey (keyInput_value page)) < 6 ->
  (2 <= score (keyInput_oninput page).1)%Z /\
  text (keyInput_oninput page).1 <> TooShort /\
  playBtn_disabled (keyInput_oninput page).2 = true /\
  encryptAudioToImage audioBuffer (getUserSecretKey (keyInput_value page)) rs
  = Err (if falsy (getUserSecretKey (keyInput_value page))
         then SecretKeyRequired else PasswordTooWeak).
Proof.
  intros Hplay Hlen Htrim. unfold keyInput_oninput. cbn [fst snd].
  pose proof (checkPasswordStrength_ge_2 _ Hlen) as Hscore.
  split; [done|]. split.
  { intros Htext. unfold checkPasswordStrength in Hscore, Htext.
    destruct (Nat.ltb_spec (length (keyInput_value page)) 6); [lia|].
    cbv zeta in Htext.
    repeat match type of Htext with
           | context [if ?b then _ else _] => destruct b; try discriminate Htext
           end. }
  split.
  - unfold updatePlayButtonState. rewrite Hplay.
    cbn [negb playBtn_disabled].
    rewrite (checkPasswordStrength_short _ Htrim). cbn [score].
    by rewrite andb_false_r.
  - unfold encryptAudioToImage.
    destruct (falsy (getUserSecretKey (keyInput_value page))); [done|].
    by rewrite (checkPasswordStrength_short _ Htrim).
Qed.
End Typing.

Lemma strength_shown_for_untrimmed_key_witness :
  let page := mkPage (js "abc      "%string) (Some blank_canvas) false true in
  (2 <= score (keyInput_oninput page).1)%Z /\
  text (keyInput_oninput page).1 <> TooShort /\
  playBtn_disabled (keyInput_oninput page).2 = true /\
  encryptAudioToImage (P := Small.platform) two_samples
    (getUserSecretKey (keyInput_value page)) (Small.counter 0)
  = Err (if falsy (getUserSecretKey (keyInput_value page))
         then SecretKeyRequired else PasswordTooWeak).
Proof.
  apply (strength_shown_for_untrimmed_key (P := Small.platform)
           (mkPage (js "abc      "%string) (Some blank_canvas) false true)).
  - reflexivity.
  - simpl. lia.
  - vm_compute. lia.
Defined.

(** ** The seed of the earlier script *)

Lemma createSeedFromString_foldl (str : jsstring) (seed : Z) :
  foldl (fun seed c => ((seed + Z.of_N c) mod 2147483647)%Z) (seed mod 2147483647)%Z str
  = ((seed + code_unit_sum str) mod 2147483647)%Z.
Proof.
  revert seed. induction str as [|c str IH]; intros seed;
    cbn [foldl code_unit_sum foldr].
  { by rewrite Z.add_0_r. }
  rewrite IH. fold (code_unit_sum str).
  rewrite <- Z.add_assoc. by rewrite Zplus_mod_idemp_l.
Qed.

(** The seed is the sum of the code units modulo 2^31 - 1. *)
Lemma createSeedFromString_sum (str : jsstring) :
  createSeedFromString str = (code_unit_sum str mod 2147483647)%Z.
Proof.
  unfold createSeedFromString. destruct str as [|c str]; [done|].
  cbn [falsy].
  change 0%Z with (0 mod 2147483647)%Z at 1.
  by rewrite createSeedFromString_foldl.
Qed.

Lemma code_unit_sum_Permutation (str str' : jsstring) :
  str ≡ₚ str' -> code_unit_sum str = code_unit_sum str'.
Proof.
  induction 1 as [|c s s' _ IH|c c' s|s s' s'' _ IH1 _ IH2]; simpl; lia.
Qed.

(** X20.  [createSeedFromString] depends on the characters of the key
    only, not on their order: two keys that are rearrangements of each
    other give the same seed, which lies between 0 and 2^31 - 2. *)
Theorem seed_ignores_order (str str' : jsstring) :
  str ≡ₚ str' ->
  createSeedFromString str = createSeedFromString str' /\
  (0 <= createSeedFromString str < 2147483647)%Z.
Proof.
  intros Hperm. rewrite !createSeedFromString_sum.
  rewrite (code_unit_sum_Permutation _ _ Hperm).
  split; [done|]. apply Z.mod_pos_bound. lia.
Qed.

Lemma seed_ignores_order_witness :
  createSeedFromString (js "ab"%string) = createSeedFromString (js "ba"%string) /\
  (0 <= createSeedFromString (js "ab"%string) < 2147483647)%Z.
Proof.
  apply (seed_ignores_order (js "ab"%string) (js "ba"%string)).
  vm_compute. apply perm_swap.
Defined.
